(** * PAN-Search: the matching pipeline of [src/utils/nlp.py] and [src/search.py]

    A shallow embedding of the text normaliser, the phonetic encoder, candidate
    verification and the closure expander, with the properties the
    specification states about them.

    Conventions of the embedding:
    - a Python [str] is its sequence of Unicode code points, [list Z];
    - [Optional[str]] (and a SQL NULL read back as [None]) is [option str];
    - the Unicode tables, rapidfuzz, phonetics and indic_transliteration are
      third-party code: they enter as type classes whose fields are the
      functions the source calls;
    - [config.py] is not among the sources: the thresholds and limits that
      [search.py] reads from it are the fields of two records;
    - DuckDB is a table of rows with a dynamic column list; every statement the
      code executes is recorded in a trace, and a statement that names a column
      the table lacks raises, unless its WHERE clause names an alias of its
      select list. *)

From Stdlib Require Import List ZArith Bool Lia String Sorted Permutation Arith PeanoNat.
Import ListNotations.
Local Open Scope Z_scope.

(* ================================================================== *)
(** * Part I. Definitions *)
(* ================================================================== *)

(** ** Python strings *)

Definition str := list Z.
Definition ostr := option str.

(** ASCII text as code points, for readable examples. *)
Definition py (s : string) : str :=
  map (fun a => Z.of_N (Ascii.N_of_ascii a)) (list_ascii_of_string s).

Definition str_eq_dec : forall a b : str, {a = b} + {a <> b} := list_eq_dec Z.eq_dec.

Definition str_eqb (a b : str) : bool := if str_eq_dec a b then true else false.

(** Truthiness of a [str]: [bool(s)]. *)
Definition nonempty (s : str) : bool :=
  match s with [] => false | _ :: _ => true end.

(** Truthiness of an [Optional[str]]. *)
Definition truthy (o : ostr) : bool :=
  match o with Some s => nonempty s | None => false end.

(** [x or ""]. *)
Definition or_empty (o : ostr) : str :=
  match o with Some s => s | None => [] end.

Fixpoint starts_with (p s : str) : bool :=
  match p, s with
  | [], _ => true
  | _ :: _, [] => false
  | a :: p', b :: s' => (a =? b) && starts_with p' s'
  end.

(** [needle in hay] on strings: [needle] occurs at some offset of [hay]. *)
Fixpoint str_in (needle hay : str) : bool :=
  starts_with needle hay
  || match hay with [] => false | _ :: hay' => str_in needle hay' end.

(** The same relation as a proposition. *)
Definition substring (needle hay : str) : Prop :=
  exists pre post, hay = pre ++ needle ++ post.

(** [max(xs, default=d)] and [max(xs)] on a non-empty list. *)
Definition py_max (xs : list Z) (default : Z) : Z :=
  match xs with
  | [] => default
  | x :: rest => fold_left Z.max rest x
  end.

(** ** The Unicode tables Python consults *)

Class Unicode := {
  (** [str.isalnum] of one code point: a letter or a digit. *)
  isalnum : Z -> bool;
  (** [str.isspace] of one code point; [\s] of [re] in a [str] pattern. *)
  isspace : Z -> bool;
  (** [unicodedata.normalize("NFC", s)]. *)
  nfc : str -> str;
  (** [s.lower()] and [s.upper()]. *)
  str_lower : str -> str;
  str_upper : str -> str
}.

Definition SPACE : Z := 32.
Definition UNDERSCORE : Z := 95.

(** ** utils/nlp.py *)

Definition DEVANAGARI_BLOCK : Z * Z := (0x0900, 0x097F).

Definition in_devanagari_block (cp : Z) : bool :=
  (fst DEVANAGARI_BLOCK <=? cp) && (cp <=? snd DEVANAGARI_BLOCK).

(** The [for ch in text] loop of [is_devanagari], leaving at the first hit. *)
Fixpoint is_devanagari_loop (text : str) : bool :=
  match text with
  | [] => false
  | cp :: rest => if in_devanagari_block cp then true else is_devanagari_loop rest
  end.

Definition is_devanagari (text : str) : bool :=
  if negb (nonempty text) then false else is_devanagari_loop text.

(** [\w] of [re] in a [str] pattern: an alphanumeric code point or the underscore. *)
Definition re_word `{Unicode} (cp : Z) : bool :=
  isalnum cp || (cp =? UNDERSCORE).

(** The class [[^\w\s\u0900-\u097F]]. *)
Definition re_punct `{Unicode} (cp : Z) : bool :=
  negb (re_word cp || isspace cp || ((0x0900 <=? cp) && (cp <=? 0x097F))).

(** [re.sub(r"[^\w\s\u0900-\u097F]", " ", text or "")]. *)
Definition normalize_punct `{Unicode} (text : str) : str :=
  map (fun cp => if re_punct cp then SPACE else cp) text.

(** [re.sub(r"\s+", repl, text)]: [re_sub_ws] scans for the next match, and
    [re_sub_ws_run] is inside a greedy match of [\s+], whose replacement has
    been emitted already. *)
Fixpoint re_sub_ws `{Unicode} (repl text : str) : str :=
  match text with
  | [] => []
  | cp :: rest =>
      if isspace cp then repl ++ re_sub_ws_run repl rest
      else cp :: re_sub_ws repl rest
  end
with re_sub_ws_run `{Unicode} (repl text : str) : str :=
  match text with
  | [] => []
  | cp :: rest =>
      if isspace cp then re_sub_ws_run repl rest
      else cp :: re_sub_ws repl rest
  end.

Fixpoint lstrip `{Unicode} (s : str) : str :=
  match s with
  | [] => []
  | cp :: rest => if isspace cp then lstrip rest else s
  end.

Definition rstrip `{Unicode} (s : str) : str := rev (lstrip (rev s)).

(** [s.strip()]. *)
Definition strip `{Unicode} (s : str) : str := rstrip (lstrip s).

Definition normalize_whitespace `{Unicode} (text : str) : str :=
  strip (re_sub_ws [SPACE] text).

Definition to_nfc `{Unicode} (text : str) : str := nfc text.

Definition normalize_name `{Unicode} (raw : ostr) : str :=
  match raw with
  | None | Some [] => []
  | Some raw =>
      let text := to_nfc raw in
      let text := normalize_punct text in
      let text := normalize_whitespace text in
      str_lower text
  end.

Definition detect_language (text : str) : string :=
  if is_devanagari text then "devanagari"%string else "latin"%string.

(** The schemes of [indic_transliteration.sanscript] the source names. *)
Inductive scheme : Type := DEVANAGARI | ITRANS.

Class Phonetics := {
  (** [indic_transliteration.sanscript.transliterate]. *)
  transliterate : str -> scheme -> scheme -> str;
  (** [phonetics.dmetaphone]: the primary and the secondary code. *)
  dmetaphone : str -> str * str
}.

Definition devanagari_to_latin `{Phonetics} (text : str) : str :=
  if negb (nonempty text) then [] else transliterate text DEVANAGARI ITRANS.

(** [p or s or ""]. *)
Definition first_nonempty (p s : str) : str :=
  if nonempty p then p else if nonempty s then s else [].

Definition english_phonetic_key `{Phonetics} (text : str) : str :=
  let '(p, s) := dmetaphone text in first_nonempty p s.

Definition marathi_phonetic_key `{Phonetics} (text : str) : str :=
  let latin := devanagari_to_latin text in
  let '(p, s) := dmetaphone latin in first_nonempty p s.

Definition phonetic_key `{Phonetics} (text : str) : str :=
  if negb (nonempty text) then []
  else
    let lang := detect_language text in
    if String.eqb lang "devanagari" then marathi_phonetic_key text
    else english_phonetic_key text.

Class Fuzz := {
  (** The score type of rapidfuzz (a float) and [int()] on it. *)
  ratio : Type;
  py_int : ratio -> Z;
  (** [rapidfuzz.fuzz.token_set_ratio]. *)
  token_set_ratio : str -> str -> ratio
}.

Definition fuzzy_name_score `{Fuzz} (a b : str) : Z := py_int (token_set_ratio a b).

Definition fuzzy_address_score `{Fuzz} (a b : str) : Z := py_int (token_set_ratio a b).

(** [re.sub(r"\s+", "", pan).upper()]. *)
Definition canonicalize_pan `{Unicode} (pan : ostr) : str :=
  match pan with
  | None | Some [] => []
  | Some pan => str_upper (re_sub_ws [] pan)
  end.

(** ** config.py, as search.py reads it *)

(** [THRESHOLDS]: the four score thresholds and the mobile flag. *)
Record THRESHOLDS := {
  name_strict : Z;
  name_medium : Z;
  name_loose : Z;
  address_loose : Z;
  mobile_exact_required : bool
}.

(** [SEARCH]: the two row limits.  [limit_return_rows] is tested for
    truthiness before it is used, so [0] stands for every falsy setting. *)
Record SEARCH := {
  candidate_limit : nat;
  limit_return_rows : nat
}.

(** ** collections.Counter *)

(** A [Counter] keeps its keys in insertion order. *)
Definition counter := list (str * nat).

Fixpoint counter_incr (k : str) (c : counter) : counter :=
  match c with
  | [] => [(k, 1%nat)]
  | (k', n) :: c' =>
      if str_eqb k k' then (k', S n) :: c' else (k', n) :: counter_incr k c'
  end.

(** [Counter(xs)]. *)
Definition Counter (xs : list str) : counter :=
  fold_left (fun c k => counter_incr k c) xs [].

(** Insertion in front of the first entry that does not count more. *)
Fixpoint insert_by_count (x : str * nat) (l : counter) : counter :=
  match l with
  | [] => [x]
  | y :: l' =>
      if (snd x <? snd y)%nat then y :: insert_by_count x l' else x :: l
  end.

(** [sorted(items, key=itemgetter(1), reverse=True)]: a stable sort, so
    entries of equal count keep the order they have in [items]. *)
Definition sorted_by_count_desc (items : counter) : counter :=
  fold_right insert_by_count [] items.

(** [c.most_common(n)], which is [heapq.nlargest(n, c.items(), key=itemgetter(1))]:
    the first [n] entries of the stable descending sort. *)
Definition most_common (n : nat) (c : counter) : counter :=
  firstn n (sorted_by_count_desc c).

(** ** The data source *)

(** A table with a column list discovered at run time; a row holds one cell
    per column, [None] for NULL. *)
Record Database := {
  db_columns : list string;
  db_rows : list (list ostr)
}.

(** A five-column row as the two blocking queries project it:
    [(name_norm, name_phonetic, address, mobile, pan_upper)]. *)
Definition Row := (ostr * ostr * ostr * ostr * ostr)%type.

Definition r0 (r : Row) : ostr := let '(a, _, _, _, _) := r in a.
Definition r2 (r : Row) : ostr := let '(_, _, c, _, _) := r in c.
Definition r3 (r : Row) : ostr := let '(_, _, _, d, _) := r in d.
Definition r4 (r : Row) : ostr := let '(_, _, _, _, e) := r in e.

(** One item of a select list: a column, or ['' AS column]. *)
Inductive sql_expr : Type :=
| Col (name : string)
| EmptyAs (name : string).

Inductive sql_pred : Type :=
| ColIn (name : string) (params : list str)   (* name IN (?, ..., ?) *)
| ColEq (name : string) (param : str).        (* name = ? *)

Inductive sql_where : Type :=
| WhereFalse                                  (* 1=0 *)
| WhereOr (conds : list sql_pred).            (* c1 OR ... OR cn *)

Inductive statement : Type :=
| PragmaTableInfo (table : string)
| Select (parts : list sql_expr) (whr : sql_where) (limit : option nat)
| SelectStar (whr : sql_where) (limit : option nat).

Inductive error : Type :=
| BinderError (column : string)   (* a column the table does not have *)
| ParserError.                    (* an empty IN list *)

Inductive result (A : Type) : Type :=
| Ok (a : A)
| Raise (e : error).
Arguments Ok {A} a.
Arguments Raise {A} e.

(** A computation on a connection: it reads the table, appends the
    statements it executes to the trace, and returns or raises. *)
Definition DB (A : Type) : Type := Database -> list statement -> result A * list statement.

Definition ret {A} (a : A) : DB A := fun _ tr => (Ok a, tr).

Definition bind {A B} (m : DB A) (k : A -> DB B) : DB B :=
  fun db tr =>
    match m db tr with
    | (Ok a, tr') => k a db tr'
    | (Raise e, tr') => (Raise e, tr')
    end.

Declare Scope db_scope.
Delimit Scope db_scope with db.
Notation "x <- m ;; k" := (bind m (fun x => k))
  (at level 100, m at next level, right associativity) : db_scope.

Fixpoint index_of (name : string) (cols : list string) : option nat :=
  match cols with
  | [] => None
  | c :: cols' =>
      if String.eqb name c then Some 0%nat
      else option_map S (index_of name cols')
  end.

Definition has_column (db : Database) (name : string) : bool :=
  match index_of name (db_columns db) with Some _ => true | None => false end.

Definition cell (db : Database) (name : string) (r : list ostr) : ostr :=
  match index_of name (db_columns db) with
  | Some i => nth i r None
  | None => None
  end.

Definition pred_column (p : sql_pred) : string :=
  match p with ColIn c _ | ColEq c _ => c end.

(** A comparison with NULL never holds. *)
Definition pred_holds (db : Database) (p : sql_pred) (r : list ostr) : bool :=
  match cell db (pred_column p) r with
  | None => false
  | Some v =>
      match p with
      | ColIn _ params => existsb (str_eqb v) params
      | ColEq _ param => str_eqb v param
      end
  end.

Definition where_holds (db : Database) (w : sql_where) (r : list ostr) : bool :=
  match w with
  | WhereFalse => false
  | WhereOr conds => existsb (fun p => pred_holds db p r) conds
  end.

(** What the statement must bind before any row is read. *)
Fixpoint check_preds (db : Database) (conds : list sql_pred) : result unit :=
  match conds with
  | [] => Ok tt
  | p :: conds' =>
      if negb (has_column db (pred_column p)) then Raise (BinderError (pred_column p))
      else match p with
           | ColIn _ [] => Raise ParserError
           | _ => check_preds db conds'
           end
  end.

Fixpoint check_parts (db : Database) (parts : list sql_expr) : result unit :=
  match parts with
  | [] => Ok tt
  | Col c :: parts' =>
      if has_column db c then check_parts db parts' else Raise (BinderError c)
  | EmptyAs _ :: parts' => check_parts db parts'
  end.

Definition check_where (db : Database) (w : sql_where) : result unit :=
  match w with
  | WhereFalse => Ok tt
  | WhereOr conds => check_preds db conds
  end.

Definition project (db : Database) (e : sql_expr) (r : list ostr) : ostr :=
  match e with
  | Col c => cell db c r
  | EmptyAs _ => Some []
  end.

Definition apply_limit {A} (limit : option nat) (rows : list A) : list A :=
  match limit with
  | Some n => firstn n rows
  | None => rows
  end.

(** [con.execute("PRAGMA table_info('transactions')").fetchall()], read as
    the column names. *)
Definition execute_table_info (table : string) : DB (list string) :=
  fun db tr => (Ok (db_columns db), tr ++ [PragmaTableInfo table]).

(** A name in the WHERE clause of a select with a select list is bound to
    the column of the table with that name and, where the table has none,
    to the alias of that name in the select list: with ['' AS pan_upper]
    selected, [WHERE pan_upper = ?] compares the empty string. *)
Definition alias_in (name : string) (parts : list sql_expr) : bool :=
  existsb (fun e => match e with
                    | EmptyAs a => String.eqb name a
                    | Col _ => false
                    end) parts.

Definition bound_in (db : Database) (parts : list sql_expr) (name : string) : bool :=
  has_column db name || alias_in name parts.

Definition bound_cell (db : Database) (parts : list sql_expr) (name : string)
    (r : list ostr) : ostr :=
  if has_column db name then cell db name r
  else if alias_in name parts then Some []
  else None.

Definition select_pred_holds (db : Database) (parts : list sql_expr) (p : sql_pred)
    (r : list ostr) : bool :=
  match bound_cell db parts (pred_column p) r with
  | None => false
  | Some v =>
      match p with
      | ColIn _ params => existsb (str_eqb v) params
      | ColEq _ param => str_eqb v param
      end
  end.

Definition select_where_holds (db : Database) (parts : list sql_expr) (w : sql_where)
    (r : list ostr) : bool :=
  match w with
  | WhereFalse => false
  | WhereOr conds => existsb (fun p => select_pred_holds db parts p r) conds
  end.

Fixpoint select_check_preds (db : Database) (parts : list sql_expr)
    (conds : list sql_pred) : result unit :=
  match conds with
  | [] => Ok tt
  | p :: conds' =>
      if negb (bound_in db parts (pred_column p)) then Raise (BinderError (pred_column p))
      else match p with
           | ColIn _ [] => Raise ParserError
           | _ => select_check_preds db parts conds'
           end
  end.

Definition select_check_where (db : Database) (parts : list sql_expr) (w : sql_where)
  : result unit :=
  match w with
  | WhereFalse => Ok tt
  | WhereOr conds => select_check_preds db parts conds
  end.

(** [con.execute(q, params).fetchall()] for a five-column select. *)
Definition execute_select5
    (parts : sql_expr * sql_expr * sql_expr * sql_expr * sql_expr)
    (whr : sql_where) (limit : option nat) : DB (list Row) :=
  fun db tr =>
    let '(p0, p1, p2, p3, p4) := parts in
    let sel := [p0; p1; p2; p3; p4] in
    let tr' := tr ++ [Select sel whr limit] in
    match check_parts db sel, select_check_where db sel whr with
    | Raise e, _ => (Raise e, tr')
    | Ok _, Raise e => (Raise e, tr')
    | Ok _, Ok _ =>
        (Ok (map (fun r => (project db p0 r, project db p1 r, project db p2 r,
                            project db p3 r, project db p4 r))
                 (apply_limit limit (filter (select_where_holds db sel whr) (db_rows db)))),
         tr')
    end.

(** [con.execute(q, params).fetchall()] for [SELECT * FROM transactions]. *)
Definition execute_select_star (whr : sql_where) (limit : option nat)
  : DB (list (list ostr)) :=
  fun db tr =>
    let tr' := tr ++ [SelectStar whr limit] in
    match check_where db whr with
    | Raise e => (Raise e, tr')
    | Ok _ => (Ok (apply_limit limit (filter (where_holds db whr) (db_rows db))), tr')
    end.

(** [list({...})]: the distinct elements (Python fixes no order for them). *)
Definition set_to_list (xs : list str) : list str := nodup str_eq_dec xs.

(** ** search.py *)
Local Open Scope db_scope.

(** [rows] are the 1-tuples [(name_norm,)]. *)
Definition pick_canonical_names (rows : list ostr) : list str :=
  let counter := Counter (map or_empty (filter truthy rows)) in
  map fst (most_common 3 counter).

Definition _get_table_columns : DB (list string) :=
  execute_table_info "transactions".

Definition col_in (name : string) (cols : list string) : bool :=
  existsb (String.eqb name) cols.

Definition col_or_empty (name : string) (cols : list string) : sql_expr :=
  if col_in name cols then Col name else EmptyAs name.

Definition fetch_rows_for_pan `{Unicode} (pan : ostr) : DB (list Row) :=
  let pan_up := canonicalize_pan pan in
  cols <- _get_table_columns ;;
  let select_parts :=
    (Col "name_norm",
     col_or_empty "name_phonetic" cols,
     col_or_empty "address" cols,
     col_or_empty "mobile" cols,
     col_or_empty "pan_upper" cols) in
  execute_select5 select_parts (WhereOr [ColEq "pan_upper" pan_up]) None.

Definition candidate_block_by_names `{Unicode} `{Phonetics} (SP : SEARCH)
    (names : list str) : DB (list Row) :=
  cols <- _get_table_columns ;;
  if col_in "name_phonetic" cols then
    let keys := set_to_list (map phonetic_key (filter nonempty names)) in
    if negb (match keys with [] => false | _ => true end) then ret []
    else
      let select_parts :=
        (Col "name_norm",
         Col "name_phonetic",
         col_or_empty "address" cols,
         col_or_empty "mobile" cols,
         col_or_empty "pan_upper" cols) in
      execute_select5 select_parts (WhereOr [ColIn "name_phonetic" keys])
                      (Some (candidate_limit SP))
  else
    let norms := set_to_list (map (fun n => normalize_name (Some n)) (filter nonempty names)) in
    if negb (match norms with [] => false | _ => true end) then ret []
    else
      let select_parts :=
        (Col "name_norm",
         EmptyAs "name_phonetic",
         col_or_empty "address" cols,
         col_or_empty "mobile" cols,
         col_or_empty "pan_upper" cols) in
      execute_select5 select_parts (WhereOr [ColIn "name_norm" norms])
                      (Some (candidate_limit SP)).

(** [max((nlp.fuzzy_name_score(name_norm, b) for b in base_names), default=0)]. *)
Definition best_name_score `{Fuzz} (name_norm : str) (base_names : list str) : Z :=
  py_max (map (fun b => fuzzy_name_score name_norm b) base_names) 0.

Definition verify_candidate `{Fuzz} (TH : THRESHOLDS) (base_names : list str)
    (row : Row) : bool :=
  let '(name_norm, _phon, address, mobile, _pan) := row in
  if negb (truthy name_norm) then false
  else
    let best_name := best_name_score (or_empty name_norm) base_names in
    if name_strict TH <=? best_name then true
    else if name_medium TH <=? best_name then true
    else if name_loose TH <=? best_name then
      let address_scores :=
        map (fun adr => fuzzy_address_score (or_empty address) (or_empty adr)) [address] in
      let addr_ok :=
        address_loose TH <=?
          py_max (match address_scores with [] => [0] | _ => address_scores end) 0 in
      let mobile_ok :=
        if negb (mobile_exact_required TH) then true
        else truthy mobile && str_in (or_empty mobile) (or_empty (r3 row)) in
      addr_ok || mobile_ok
    else false.

(** [if SP.limit_return_rows: q += f" LIMIT {SP.limit_return_rows}"]. *)
Definition limit_clause (SP : SEARCH) : option nat :=
  match limit_return_rows SP with
  | O => None
  | S _ => Some (limit_return_rows SP)
  end.

Definition expand_all_transactions_for_entities `{Unicode} (SP : SEARCH)
    (pans names : list str) : DB (list (list ostr)) :=
  let pans := map (fun p => canonicalize_pan (Some p)) (filter nonempty pans) in
  let names := set_to_list (filter nonempty names) in
  let conds := [] in
  let conds := match pans with [] => conds | _ => conds ++ [ColIn "pan_upper" pans] end in
  let conds := match names with [] => conds | _ => conds ++ [ColIn "name_norm" names] end in
  let whr := match conds with [] => WhereFalse | _ => WhereOr conds end in
  execute_select_star whr (limit_clause SP).

Definition search_by_pan `{Unicode} `{Phonetics} `{Fuzz} (TH : THRESHOLDS) (SP : SEARCH)
    (pan : ostr) : DB (list (list ostr)) :=
  base_rows <- fetch_rows_for_pan pan ;;
  match base_rows with
  | [] => ret []
  | _ =>
      let base_names := pick_canonical_names (map r0 base_rows) in
      candidates <- candidate_block_by_names SP base_names ;;
      let verified := filter (verify_candidate TH base_names) candidates in
      let all_pans := set_to_list (map or_empty (filter truthy (map r4 base_rows))) in
      let all_names :=
        set_to_list (map or_empty (filter truthy (map r0 base_rows))
                     ++ map (fun r => or_empty (r0 r)) verified) in
      expand_all_transactions_for_entities SP all_pans all_names
  end.

Definition search_by_seed_name `{Unicode} `{Phonetics} `{Fuzz} (TH : THRESHOLDS)
    (SP : SEARCH) (seed_name : str) : DB (list (list ostr)) :=
  let seed_norm := normalize_name (Some seed_name) in
  let base_names := [seed_norm] in
  candidates <- candidate_block_by_names SP base_names ;;
  let verified := filter (verify_candidate TH base_names) candidates in
  let all_names := set_to_list (map (fun r => or_empty (r0 r)) verified ++ [seed_norm]) in
  let pans := map or_empty (filter truthy (map r4 verified)) in
  expand_all_transactions_for_entities SP pans all_names.
Local Close Scope db_scope.

(** ** The vocabulary of the specification *)

(** Whitespace-separated tokens of a string, as [s.split()] gives them. *)
Definition push_char (cp : Z) (ws : list str) : list str :=
  match ws with
  | [] => [[cp]]
  | w :: ws' => (cp :: w) :: ws'
  end.

Fixpoint words `{Unicode} (s : str) : list str :=
  match s with
  | [] => []
  | cp :: rest =>
      if isspace cp then words rest
      else match rest with
           | [] => [[cp]]
           | d :: _ => if isspace d then [cp] :: words rest else push_char cp (words rest)
           end
  end.

(** Tokens joined by one space: [" ".join(ws)]. *)
Definition unwords (ws : list str) : str :=
  match ws with
  | [] => []
  | w :: ws' => w ++ flat_map (fun v => SPACE :: v) ws'
  end.

(** The steps of section 4.1 in the specification's words: compose (NFC),
    replace what [keep] rejects by a space, collapse whitespace runs to one
    space and trim, lower-case. *)
Definition normalize_steps `{Unicode} (keep : Z -> bool) (raw : ostr) : str :=
  match raw with
  | None | Some [] => []
  | Some raw =>
      str_lower (unwords (words (map (fun cp => if keep cp then cp else SPACE) (nfc raw))))
  end.

(** "letters, digits, whitespace, or Devanagari-block code points". *)
Definition letter_digit_space_devanagari `{Unicode} (cp : Z) : bool :=
  isalnum cp || isspace cp || in_devanagari_block cp.

(** The same with the underscore, which [\w] also matches. *)
Definition word_space_devanagari `{Unicode} (cp : Z) : bool :=
  isalnum cp || (cp =? UNDERSCORE) || isspace cp || in_devanagari_block cp.

(** The non-empty names of [rows], in row order: what [pick_canonical_names] counts. *)
Definition counted_names (rows : list ostr) : list str :=
  map or_empty (filter truthy rows).

(** The distinct elements in the order of their first occurrence. *)
Definition first_seen (xs : list str) : list str :=
  fold_left (fun acc x => if existsb (str_eqb x) acc then acc else acc ++ [x]) xs [].

(** Position of the first occurrence. *)
Fixpoint first_index (x : str) (xs : list str) : nat :=
  match xs with
  | [] => 0%nat
  | y :: ys => if str_eqb x y then 0%nat else S (first_index x ys)
  end.

Definition frequency (names : list str) (x : str) : nat := count_occ str_eq_dec names x.

(** [a] ranks before [b]: more frequent, or as frequent and seen first. *)
Definition ranks_before (names : list str) (a b : str) : Prop :=
  (frequency names b < frequency names a)%nat
  \/ (frequency names a = frequency names b
      /\ (first_index a names < first_index b names)%nat).

(** Orders on counter entries: by first occurrence of the key, and by
    higher count first with the order [R] among equal counts. *)
Definition seen_earlier (names : list str) (e1 e2 : str * nat) : Prop :=
  (first_index (fst e1) names < first_index (fst e2) names)%nat.

Definition by_count_then (R : str * nat -> str * nat -> Prop) (e1 e2 : str * nat) : Prop :=
  (snd e2 < snd e1)%nat \/ (snd e1 = snd e2 /\ R e1 e2).

(** Code points below 128. *)
Definition is_ascii (cp : Z) : Prop := 0 <= cp < 128.

(** What whitespace-normalised ASCII text is made of, besides single
    spaces: non-empty tokens of code points that are neither whitespace nor
    replaced by [normalize_punct]. *)
Definition word_char `{Unicode} (c : Z) : Prop :=
  is_ascii c /\ isspace c = false /\ re_punct c = false.

Definition word_ok `{Unicode} (w : str) : Prop := w <> [] /\ Forall word_char w.

(** ** Tables and stand-ins for the examples *)

(** CPython's tables on Basic Latin. *)
Definition ascii_isalnum (cp : Z) : bool :=
  ((48 <=? cp) && (cp <=? 57)) || ((65 <=? cp) && (cp <=? 90))
  || ((97 <=? cp) && (cp <=? 122)).

Definition ascii_isspace (cp : Z) : bool :=
  ((9 <=? cp) && (cp <=? 13)) || ((28 <=? cp) && (cp <=? 32)).

Definition ascii_lower (cp : Z) : Z :=
  if (65 <=? cp) && (cp <=? 90) then cp + 32 else cp.

Definition ascii_upper (cp : Z) : Z :=
  if (97 <=? cp) && (cp <=? 122) then cp - 32 else cp.

(** What a set of tables must say about ASCII text to agree with Python. *)
Record AsciiFaithful (U : Unicode) : Prop := {
  af_isalnum : forall cp, is_ascii cp -> isalnum cp = ascii_isalnum cp;
  af_isspace : forall cp, is_ascii cp -> isspace cp = ascii_isspace cp;
  af_nfc : forall s, Forall is_ascii s -> nfc s = s;
  af_lower : forall s, Forall is_ascii s -> str_lower s = map ascii_lower s
}.

(** U+0130 LATIN CAPITAL LETTER I WITH DOT ABOVE and U+0307 COMBINING DOT
    ABOVE.  In the Unicode Character Database U+0130 is a letter (Lu), a
    primary composite (so NFC keeps it), and lower-cases to <U+0069, U+0307>
    (SpecialCasing.txt); U+0307 is a non-spacing mark (Mn): [str.isalnum]
    and [str.isspace] are both false on it, and it composes with no
    preceding [i]. *)
Definition CAPITAL_I_DOT : Z := 0x0130.
Definition COMBINING_DOT : Z := 0x0307.

(** An excerpt of the tables: Basic Latin, U+0130 and U+0307.  Every other
    code point is left as a caseless symbol, and NFC is the identity, which
    is what it is on ASCII text, on the strings <U+0130> and
    <U+0069, U+0307>, and on [name_two_scripts] below, whose Devanagari
    letters [normalize_punct] keeps by their block. *)
Definition ucd_excerpt : Unicode := {|
  isalnum := fun cp => ascii_isalnum cp || (cp =? CAPITAL_I_DOT);
  isspace := ascii_isspace;
  nfc := fun s => s;
  str_lower :=
    flat_map (fun cp => if cp =? CAPITAL_I_DOT then [105; COMBINING_DOT]
                        else [ascii_lower cp]);
  str_upper := map ascii_upper
|}.

(** What a set of tables must say about the two code points above. *)
Record DottedIFaithful (U : Unicode) : Prop := {
  di_alnum_I : isalnum CAPITAL_I_DOT = true;
  di_space_I : isspace CAPITAL_I_DOT = false;
  di_alnum_i : isalnum 105 = true;
  di_space_i : isspace 105 = false;
  di_alnum_dot : isalnum COMBINING_DOT = false;
  di_space_dot : isspace COMBINING_DOT = false;
  di_space_sp : isspace SPACE = true;
  di_nfc_I : nfc [CAPITAL_I_DOT] = [CAPITAL_I_DOT];
  di_nfc_idot : nfc [105; COMBINING_DOT] = [105; COMBINING_DOT];
  di_lower_I : str_lower [CAPITAL_I_DOT] = [105; COMBINING_DOT];
  di_lower_i : str_lower [105] = [105]
}.

(** The same over an alphabet [A]: what the tokens of whitespace-normalised
    text over [A] are made of. *)
Definition token_char `{Unicode} (A : Z -> Prop) (c : Z) : Prop :=
  A c /\ isspace c = false /\ re_punct c = false.

Definition token_ok `{Unicode} (A : Z -> Prop) (w : str) : Prop :=
  w <> [] /\ Forall (token_char A) w.

(** What [normalize_name] computes after NFC, with [str.lower] acting code
    point by code point through [lc]. *)
Definition normal_form `{Unicode} (lc : Z -> Z) (text : str) : str :=
  map lc (normalize_whitespace (normalize_punct text)).

(** An alphabet [A] that lower-casing does not lead out of.  On text over
    [A], [str.lower] maps each code point by [lc]; [lc] is idempotent on
    token characters and maps them to token characters (what U+0130 does
    not do: its lower case ends in a mark that [normalize_punct]
    replaces); NFC stays within [A], and the normal form of NFC text is
    in NFC.  NFC need not be the identity on [A]: it is not on the
    Devanagari block, where U+0958 decomposes to <U+0915, U+093C>. *)
Record LowerClosed (U : Unicode) (A : Z -> Prop) (lc : Z -> Z) : Prop := {
  lcl_SPACE : A SPACE;
  lcl_isspace_SPACE : isspace SPACE = true;
  lcl_lc_SPACE : lc SPACE = SPACE;
  lcl_token : forall c, token_char A c -> token_char A (lc c);
  lcl_idem : forall c, token_char A c -> lc (lc c) = lc c;
  lcl_lower : forall s, Forall A s -> str_lower s = map lc s;
  lcl_nfc_alphabet : forall s, Forall A s -> Forall A (nfc s);
  lcl_nfc_normal :
    forall s, Forall A s -> nfc (normal_form lc (nfc s)) = normal_form lc (nfc s)
}.

(** ASCII and the Devanagari block: the alphabet of the names the ledger
    holds. *)
Definition latin_or_devanagari (cp : Z) : Prop :=
  is_ascii cp \/ in_devanagari_block cp = true.

(** What a set of tables must say about text over that alphabet to agree
    with Python: the Devanagari block has no case, NFC composes and
    decomposes within the block, and neither a space put for an ASCII
    character nor folded whitespace nor a lower-cased ASCII letter brings
    NFC text out of NFC. *)
Record DevanagariFaithful (U : Unicode) : Prop := {
  df_lower : forall s, Forall latin_or_devanagari s -> str_lower s = map ascii_lower s;
  df_nfc_alphabet :
    forall s, Forall latin_or_devanagari s -> Forall latin_or_devanagari (nfc s);
  df_nfc_normal :
    forall s, Forall latin_or_devanagari s ->
      nfc (normal_form ascii_lower (nfc s)) = normal_form ascii_lower (nfc s)
}.

(** A name in both scripts, with spaces, an underscore and punctuation to
    normalise: U+0930 U+093E U+092E is the Devanagari spelling of Ram. *)
Definition name_two_scripts : str :=
  py "  " ++ [0x0930; 0x093E; 0x092E] ++ py "  Kumar_GIRI,  jr. ".

(** A stand-in for rapidfuzz in the examples: the percentage of positions
    at which two strings agree. *)
Fixpoint agreeing (a b : str) : Z :=
  match a, b with
  | x :: a', y :: b' => (if x =? y then 1 else 0) + agreeing a' b'
  | _, _ => 0
  end.

Definition fuzz_positional : Fuzz := {|
  ratio := Z;
  py_int := fun z => z;
  token_set_ratio := fun a b =>
    match a, b with
    | [], _ | _, [] => 0
    | _, _ => 100 * agreeing a b / Z.max (Z.of_nat (List.length a)) (Z.of_nat (List.length b))
    end
|}.

(** A stand-in for the phonetic libraries in the examples: no
    transliteration, and the upper-cased text as the primary code. *)
Definition phonetics_upper : Phonetics := {|
  transliterate := fun s _ _ => s;
  dmetaphone := fun s => (map ascii_upper s, [])
|}.

(** Settings for the examples. *)
Definition TH_example : THRESHOLDS := {|
  name_strict := 90; name_medium := 80; name_loose := 60;
  address_loose := 70; mobile_exact_required := true
|}.

Definition SP_example : SEARCH := {| candidate_limit := 200; limit_return_rows := 2 |}.

Definition SP_no_cap : SEARCH := {| candidate_limit := 200; limit_return_rows := 0 |}.

(** A ledger whose only row has a PAN and an empty normalised name. *)
Definition ledger_nameless : Database := {|
  db_columns := ["name_norm"; "pan_upper"]%string;
  db_rows := [ [Some []; Some (py "ABCDE1234F")] ]
|}.

(** A three-row ledger with the columns [name_norm] and [pan_upper]. *)
Definition ledger_example : Database := {|
  db_columns := ["name_norm"; "pan_upper"]%string;
  db_rows := [ [Some (py "john doe"); Some (py "ABCDE1234F")];
               [Some (py "john doe"); None];
               [Some (py "john doe"); Some (py "ABCDE1234F")] ]
|}.


(** ** Further vocabulary *)

(** The second column of a blocking row, [name_phonetic]. *)
Definition r1 (r : Row) : ostr := let '(_, b, _, _, _) := r in b.

(** The rows closure expansion selects: those that carry the canonical form
    of a non-empty PAN passed in, or have a non-empty name passed in as
    their normalised name. *)
Definition expansion_match `{Unicode} (db : Database) (pans names : list str)
    (r : list ostr) : Prop :=
  (exists p, In p pans /\ p <> [] /\ cell db "pan_upper" r = Some (canonicalize_pan (Some p)))
  \/ (exists n, In n names /\ n <> [] /\ cell db "name_norm" r = Some n).

(** What a set of tables must say about ASCII text for [canonicalize_pan]
    to agree with Python. *)
Record AsciiUpperFaithful (U : Unicode) : Prop := {
  au_isspace : forall cp, is_ascii cp -> isspace cp = ascii_isspace cp;
  au_upper : forall s, Forall is_ascii s -> str_upper s = map ascii_upper s
}.

(** ** utils/nlp.py: PAN codes and names out of free text *)

(** What [re] needs beyond the tables of [Unicode] for the pattern
    [PAN_REGEX]: the code points its class [[A-Z]] matches under
    [re.IGNORECASE]. *)
Class RegexCase := {
  icase_A_Z : Z -> bool
}.

(** The class [[0-9]]. *)
Definition re_digit (cp : Z) : bool := (48 <=? cp) && (cp <=? 57).

(** A sequence of one-character classes matched at the head of [s]. *)
Fixpoint match_classes (classes : list (Z -> bool)) (s : str) : bool :=
  match classes, s with
  | [], _ => true
  | _ :: _, [] => false
  | cl :: classes', cp :: s' => cl cp && match_classes classes' s'
  end.

(** [[A-Z]{5}[0-9]{4}[A-Z]]. *)
Definition pan_classes `{RegexCase} : list (Z -> bool) :=
  [icase_A_Z; icase_A_Z; icase_A_Z; icase_A_Z; icase_A_Z;
   re_digit; re_digit; re_digit; re_digit; icase_A_Z].

(** Whether the text starts with a word character; false at its end. *)
Definition word_at `{Unicode} (s : str) : bool :=
  match s with
  | [] => false
  | cp :: _ => re_word cp
  end.

(** [PAN_REGEX] matched at the head of [s], [prev_word] telling whether the
    character before is a word character: [\b], ten characters of the
    classes, [\b]. *)
Definition pan_match_at `{Unicode} `{RegexCase} (prev_word : bool) (s : str) : bool :=
  xorb prev_word (word_at s)
  && match_classes pan_classes s
  && xorb (word_at (skipn 9 s)) (word_at (skipn 10 s)).

(** [PAN_REGEX.finditer(blob)], as the matched texts: the scan tries each
    position from the left and resumes after a match; [skip] counts the
    characters of the last match still to pass. *)
Fixpoint pan_finditer `{Unicode} `{RegexCase} (skip : nat) (prev_word : bool) (s : str)
  : list str :=
  match s with
  | [] => []
  | cp :: rest =>
      match skip with
      | S k => pan_finditer k (re_word cp) rest
      | O =>
          if pan_match_at prev_word s
          then firstn 10 s :: pan_finditer 9 (re_word cp) rest
          else pan_finditer 0 (re_word cp) rest
      end
  end.

Definition extract_pan_codes `{Unicode} `{RegexCase} (blob : ostr) : list str :=
  match blob with
  | None | Some [] => []
  | Some blob => map (fun m => canonicalize_pan (Some m)) (pan_finditer 0 false blob)
  end.

(** The two patterns of [extract_names_from_blob] that look for Marathi
    field markers and role numbers, as what the regex engine finds with
    them: group 1 of every match of [NAME_SNIPPET_PATTERNS[0]], and the
    pieces of [re.split] with the role-number pattern on the blob. *)
Class NamePatterns := {
  name_snippets : str -> list str;
  split_roles : str -> list str
}.

(** [re.split(r"\s+", text)]: the pieces between whitespace runs, the empty
    pieces at either end included.  [acc] holds the current piece reversed. *)
Fixpoint re_split_ws `{Unicode} (acc : str) (text : str) : list str :=
  match text with
  | [] => [rev acc]
  | cp :: rest =>
      if isspace cp then rev acc :: re_split_ws_run rest
      else re_split_ws (cp :: acc) rest
  end
with re_split_ws_run `{Unicode} (text : str) : list str :=
  match text with
  | [] => [[]]
  | cp :: rest =>
      if isspace cp then re_split_ws_run rest
      else re_split_ws [cp] rest
  end.

(** [" ".join(pieces)]. *)
Definition join_space (pieces : list str) : str :=
  match pieces with
  | [] => []
  | w :: rest => w ++ flat_map (fun v => SPACE :: v) rest
  end.

(** The fallback loop over the pieces of the role split. *)
Fixpoint names_from_parts `{Unicode} (parts : list str) : list str :=
  match parts with
  | [] => []
  | p :: parts' =>
      let p := normalize_whitespace p in
      if nonempty p then
        let words := re_split_ws [] (normalize_punct p) in
        if (1 <=? List.length words)%nat && (List.length words <=? 6)%nat
        then normalize_name (Some (join_space words)) :: names_from_parts parts'
        else names_from_parts parts'
      else names_from_parts parts'
  end.

(** The closing loop: keep the non-empty candidates not seen before. *)
Fixpoint dedup_names (candidates seen uniq : list str) : list str :=
  match candidates with
  | [] => uniq
  | c :: rest =>
      if nonempty c && negb (existsb (str_eqb c) seen)
      then dedup_names rest (c :: seen) (uniq ++ [c])
      else dedup_names rest seen uniq
  end.

Definition extract_names_from_blob `{Unicode} `{NamePatterns} (blob : ostr) : list str :=
  match blob with
  | None | Some [] => []
  | Some blob =>
      let candidates := map (fun m => normalize_name (Some m)) (name_snippets blob) in
      let candidates :=
        match candidates with
        | [] => names_from_parts (split_roles blob)
        | _ => candidates
        end in
      firstn 3 (dedup_names candidates [] [])
  end.

(** ** api.py: the row limit of [search] *)

(** [rows[:n]] for an integer [n]: a prefix, counted from the end when [n]
    is negative. *)
Definition slice_to {A} (n : Z) (rows : list A) : list A :=
  if 0 <=? n then firstn (Z.to_nat n) rows
  else firstn (List.length rows - Z.to_nat (- n)) rows.

(** [rows[: (limit or len(rows))]]. *)
Definition limit_rows {A} (limit : option Z) (rows : list A) : list A :=
  let n := match limit with
           | None => Z.of_nat (List.length rows)
           | Some l => if l =? 0 then Z.of_nat (List.length rows) else l
           end in
  slice_to n rows.

(** ASCII letters for [[A-Z]] under [re.IGNORECASE], for the examples. *)
Definition regex_case_ascii : RegexCase := {|
  icase_A_Z := fun cp => ((65 <=? cp) && (cp <=? 90)) || ((97 <=? cp) && (cp <=? 122))
|}.

(** What [[A-Z]] under [re.IGNORECASE] must match on ASCII text. *)
Definition AsciiCaseFaithful (R : RegexCase) : Prop :=
  forall cp, is_ascii cp ->
    icase_A_Z cp = ((65 <=? cp) && (cp <=? 90)) || ((97 <=? cp) && (cp <=? 122)).

(** A well-formed PAN: five upper-case letters, four digits, one upper-case
    letter. *)
Definition upper_letter (cp : Z) : bool := (65 <=? cp) && (cp <=? 90).

Definition well_formed_pan (code : str) : Prop :=
  match_classes [upper_letter; upper_letter; upper_letter; upper_letter; upper_letter;
                 re_digit; re_digit; re_digit; re_digit; upper_letter] code = true
  /\ List.length code = 10%nat.

(** A ledger that records no PAN. *)
Definition ledger_without_pan : Database := {|
  db_columns := ["name_norm"; "address"]%string;
  db_rows := [ [Some (py "john doe"); Some (py "12 hill road")];
               [Some (py "jane roe"); None] ]
|}.

(* ================================================================== *)
(** * Part II. Properties *)
(* ================================================================== *)

(** ** Strings *)

Lemma nonempty_true (s : str) : nonempty s = true <-> s <> [].
Proof. destruct s; simpl; split; congruence. Qed.

Lemma truthy_or_empty (o : ostr) : truthy o = nonempty (or_empty o).
Proof. destruct o; reflexivity. Qed.

Lemma str_eqb_eq (a b : str) : str_eqb a b = true <-> a = b.
Proof. unfold str_eqb. destruct (str_eq_dec a b); split; congruence. Qed.

Lemma str_eqb_refl (a : str) : str_eqb a a = true.
Proof. now apply str_eqb_eq. Qed.

Lemma str_eqb_neq (a b : str) : str_eqb a b = false <-> a <> b.
Proof. unfold str_eqb. destruct (str_eq_dec a b); split; congruence. Qed.

Lemma starts_with_prefix (p s : str) :
  starts_with p s = true <-> exists post, s = p ++ post.
Proof.
  revert s. induction p as [|a p IH]; intros s; simpl.
  - split; eauto.
  - destruct s as [|b s].
    + split; [discriminate | intros [post E]; discriminate].
    + rewrite andb_true_iff, Z.eqb_eq, IH. split.
      * intros [-> [post ->]]. now exists post.
      * intros [post E]. injection E as -> ->. eauto.
Qed.

Lemma str_in_substring (needle hay : str) :
  str_in needle hay = true <-> substring needle hay.
Proof.
  unfold substring. induction hay as [|c hay IH].
  - simpl. rewrite orb_false_r, starts_with_prefix. split.
    + intros [post E]. now exists [], post.
    + intros [pre [post E]]. destruct pre as [|x pre]; [|discriminate].
      now exists post.
  - cbn [str_in]. rewrite orb_true_iff, starts_with_prefix, IH. split.
    + intros [[post E] | [pre [post E]]].
      * now exists [], post.
      * exists (c :: pre), post. simpl. now rewrite E.
    + intros [[|x pre] [post E]].
      * left. now exists post.
      * right. injection E as _ E. now exists pre, post.
Qed.

Lemma substring_refl (s : str) : substring s s.
Proof. exists [], []. simpl. now rewrite app_nil_r. Qed.

Lemma str_in_refl (s : str) : str_in s s = true.
Proof. apply str_in_substring, substring_refl. Qed.

(** ** Candidate verification *)

Section Verification.
Context `{Fuzz}.
Variable TH : THRESHOLDS.
Variable base_names : list str.

(** The value of the loose tier: address evidence or mobile evidence. *)
Lemma verify_candidate_tiers (name : str) (phon address mobile pan : ostr) :
  name <> [] ->
  verify_candidate TH base_names (Some name, phon, address, mobile, pan) =
    let best := best_name_score name base_names in
    if name_strict TH <=? best then true
    else if name_medium TH <=? best then true
    else if name_loose TH <=? best then
      (address_loose TH <=? fuzzy_address_score (or_empty address) (or_empty address))
      || (negb (mobile_exact_required TH) || truthy mobile)
    else false.
Proof.
  intros Hname. unfold verify_candidate.
  destruct name as [|c name]; [congruence|]. cbn [truthy nonempty negb or_empty].
  cbn zeta. cbn [map py_max fold_left r3].
  destruct (name_strict TH <=? _); [reflexivity|].
  destruct (name_medium TH <=? _); [reflexivity|].
  destruct (name_loose TH <=? _); [|reflexivity].
  f_equal. destruct (mobile_exact_required TH); cbn [negb orb]; [|reflexivity].
  now rewrite str_in_refl, andb_true_r.
Qed.

(** C1. A candidate with a non-empty normalised name whose best name score
    lies in the loose tier (at least [name_loose], below [name_medium], the
    tiers being ordered as named: [name_medium <= name_strict]) is accepted
    exactly when its address scored against itself reaches [address_loose],
    or mobile matching is not required, or its mobile is non-empty and a
    substring of itself.  Hence, when mobile matching is not required, every
    such candidate is accepted. *)
Theorem verify_candidate_loose_tier (name : str) (phon address mobile pan : ostr) :
  name <> [] ->
  name_medium TH <= name_strict TH ->
  name_loose TH <= best_name_score name base_names < name_medium TH ->
  (verify_candidate TH base_names (Some name, phon, address, mobile, pan) = true
   <-> (address_loose TH <= fuzzy_address_score (or_empty address) (or_empty address)
        \/ mobile_exact_required TH = false
        \/ (or_empty mobile <> [] /\ substring (or_empty mobile) (or_empty mobile))))
  /\ (mobile_exact_required TH = false ->
      verify_candidate TH base_names (Some name, phon, address, mobile, pan) = true).
Proof.
  intros Hname Hord [Hlo Hhi].
  rewrite verify_candidate_tiers by assumption. cbn zeta.
  destruct (Z.leb_spec (name_strict TH) (best_name_score name base_names)); [lia|].
  destruct (Z.leb_spec (name_medium TH) (best_name_score name base_names)); [lia|].
  destruct (Z.leb_spec (name_loose TH) (best_name_score name base_names)); [|lia].
  split.
  - rewrite !orb_true_iff, Z.leb_le, negb_true_iff, truthy_or_empty, nonempty_true.
    split.
    + intros [?|[?|?]]; auto using substring_refl.
    + intros [?|[?|[? _]]]; auto.
  - intros ->. cbn [negb orb]. apply orb_true_r.
Qed.

(** C10. Two candidate rows that agree on the normalised name, the address
    and the mobile get the same verdict, whatever their phonetic keys and
    PANs are. *)
Theorem verify_candidate_ignores_phonetic_and_pan (row1 row2 : Row) :
  r0 row1 = r0 row2 -> r2 row1 = r2 row2 -> r3 row1 = r3 row2 ->
  verify_candidate TH base_names row1 = verify_candidate TH base_names row2.
Proof.
  destruct row1 as [[[[n1 p1] a1] m1] q1], row2 as [[[[n2 p2] a2] m2] q2].
  cbn [r0 r2 r3]. intros -> -> ->. reflexivity.
Qed.

End Verification.

Lemma verify_candidate_loose_tier_witness :
  let row := (Some (py "john dxx"), None, None, Some (py "98765"), None) in
  (@verify_candidate fuzz_positional TH_example [py "john doe"] row = true
   <-> (address_loose TH_example <= @fuzzy_address_score fuzz_positional [] []
        \/ mobile_exact_required TH_example = false
        \/ (py "98765" <> [] /\ substring (py "98765") (py "98765"))))
  /\ (mobile_exact_required TH_example = false ->
      @verify_candidate fuzz_positional TH_example [py "john doe"] row = true).
Proof.
  apply (@verify_candidate_loose_tier fuzz_positional TH_example [py "john doe"]
           (py "john dxx") None None (Some (py "98765")) None).
  - discriminate.
  - vm_compute. discriminate.
  - change (@best_name_score fuzz_positional (py "john dxx") [py "john doe"]) with 75.
    cbn. lia.
Defined.

Lemma verify_candidate_ignores_phonetic_and_pan_witness :
  @verify_candidate fuzz_positional TH_example [py "john doe"]
    (Some (py "john doe"), Some (py "JN"), Some (py "pune"), None, Some (py "ABCDE1234F"))
  = @verify_candidate fuzz_positional TH_example [py "john doe"]
    (Some (py "john doe"), None, Some (py "pune"), None, Some (py "ZZZZZ9999Z")).
Proof.
  apply (@verify_candidate_ignores_phonetic_and_pan fuzz_positional TH_example);
    reflexivity.
Defined.

(** ** The phonetic key *)

Lemma is_devanagari_loop_Exists (text : str) :
  is_devanagari_loop text = true <->
  Exists (fun cp => in_devanagari_block cp = true) text.
Proof.
  induction text as [|cp rest IH]; simpl.
  - split; [discriminate | intros E; inversion E].
  - destruct (in_devanagari_block cp) eqn:Hcp.
    + split; auto.
    + rewrite IH. split; [auto|].
      intros E. inversion E; subst; [congruence | assumption].
Qed.

Lemma is_devanagari_Exists (text : str) :
  is_devanagari text = true <->
  Exists (fun cp => in_devanagari_block cp = true) text.
Proof.
  unfold is_devanagari. destruct text as [|cp rest].
  - simpl. split; [discriminate | intros E; inversion E].
  - cbn [nonempty negb]. apply is_devanagari_loop_Exists.
Qed.

Lemma in_devanagari_block_range (cp : Z) :
  in_devanagari_block cp = true <-> 0x0900 <= cp <= 0x097F.
Proof.
  unfold in_devanagari_block, DEVANAGARI_BLOCK. cbn [fst snd].
  rewrite andb_true_iff, !Z.leb_le. reflexivity.
Qed.

Section PhoneticKey.
Context `{Phonetics}.

(** C6. The empty string has the empty key.  A non-empty string with a code
    point in U+0900..U+097F is transliterated from Devanagari to ITRANS and
    the double metaphone of the romanised text is taken; any other non-empty
    string is encoded as it stands.  The key is the primary code when that is
    non-empty, else the secondary code, else the empty string. *)
Theorem phonetic_key_routes_by_script (text : str) :
  (text = [] -> phonetic_key text = [])
  /\ (text <> [] -> Exists (fun cp => 0x0900 <= cp <= 0x097F) text ->
      phonetic_key text =
        first_nonempty (fst (dmetaphone (transliterate text DEVANAGARI ITRANS)))
                       (snd (dmetaphone (transliterate text DEVANAGARI ITRANS))))
  /\ (text <> [] -> ~ Exists (fun cp => 0x0900 <= cp <= 0x097F) text ->
      phonetic_key text =
        first_nonempty (fst (dmetaphone text)) (snd (dmetaphone text)))
  /\ (forall p s,
        (p <> [] -> first_nonempty p s = p)
        /\ (p = [] -> s <> [] -> first_nonempty p s = s)
        /\ (p = [] -> s = [] -> first_nonempty p s = [])).
Proof.
  assert (Hblock : forall t,
             Exists (fun cp => 0x0900 <= cp <= 0x097F) t <->
             Exists (fun cp => in_devanagari_block cp = true) t).
  { intros t. split; apply Exists_impl; intros cp; apply in_devanagari_block_range. }
  repeat split.
  - intros ->. reflexivity.
  - intros Hne Hdev. apply Hblock, is_devanagari_Exists in Hdev.
    unfold phonetic_key, detect_language. rewrite Hdev.
    apply nonempty_true in Hne. rewrite Hne. cbn [negb String.eqb].
    unfold marathi_phonetic_key, devanagari_to_latin. rewrite Hne. cbn [negb].
    now destruct (dmetaphone _).
  - intros Hne Hlat. unfold phonetic_key, detect_language.
    destruct (is_devanagari text) eqn:Hdev.
    + exfalso. apply Hlat, Hblock, is_devanagari_Exists, Hdev.
    + apply nonempty_true in Hne. rewrite Hne. cbn [negb].
      change (String.eqb "latin" "devanagari") with false. cbv iota.
      unfold english_phonetic_key. now destruct (dmetaphone _).
  - intros Hp. unfold first_nonempty. now destruct p.
  - intros -> Hs. unfold first_nonempty. now destruct s.
  - intros -> ->. reflexivity.
Qed.

End PhoneticKey.

(** ** Retrieval *)

Lemma length_apply_limit {A} (n : nat) (rows : list A) :
  (List.length (apply_limit (Some n) rows) <= n)%nat.
Proof. simpl. apply firstn_le_length. Qed.

Lemma filter_nonempty_nil (names : list str) :
  (forall n, In n names -> n = []) -> filter nonempty names = [].
Proof.
  induction names as [|n names IH]; intros Hall; simpl; [reflexivity|].
  rewrite (Hall n) by now left. simpl. apply IH. intros m Hm. apply Hall. now right.
Qed.

Lemma filter_false {A} (l : list A) : filter (fun _ => false) l = [].
Proof. induction l; simpl; auto. Qed.

Section Retrieval.
Context `{Unicode} `{Phonetics} `{Fuzz}.
Variable TH : THRESHOLDS.
Variable SP : SEARCH.

Lemma execute_select_star_false (limit : option nat) (db : Database) (tr : list statement) :
  execute_select_star WhereFalse limit db tr = (Ok [], tr ++ [SelectStar WhereFalse limit]).
Proof.
  unfold execute_select_star. cbn [check_where].
  change (where_holds db WhereFalse) with (fun _ : list ostr => false).
  rewrite filter_false. now destruct limit as [[|n]|].
Qed.

Lemma expand_without_keys (pans names : list str) (db : Database) (tr : list statement) :
  filter nonempty pans = [] -> filter nonempty names = [] ->
  expand_all_transactions_for_entities SP pans names db tr
  = (Ok [], tr ++ [SelectStar WhereFalse (limit_clause SP)]).
Proof.
  intros Hp Hn. unfold expand_all_transactions_for_entities. rewrite Hp, Hn.
  cbn [map set_to_list nodup app]. apply execute_select_star_false.
Qed.

Lemma block_without_keys (names : list str) (db : Database) (tr : list statement) :
  filter nonempty names = [] ->
  candidate_block_by_names SP names db tr
  = (Ok [], tr ++ [PragmaTableInfo "transactions"]).
Proof.
  intros Hall.
  unfold candidate_block_by_names, bind, _get_table_columns, execute_table_info.
  rewrite Hall. cbn [map set_to_list nodup negb].
  now destruct (col_in "name_phonetic" (db_columns db)).
Qed.

(** C4. When no non-empty PAN and no non-empty name is passed, closure
    expansion executes [SELECT * FROM transactions WHERE 1=0] (with the row
    limit, if one is set), a predicate no row satisfies, and returns no row,
    whatever the table holds. *)
Theorem expand_with_empty_sets_returns_nothing
    (pans names : list str) (db : Database) (tr : list statement) :
  filter nonempty pans = [] -> filter nonempty names = [] ->
  expand_all_transactions_for_entities SP pans names db tr
  = (Ok [], tr ++ [SelectStar WhereFalse (limit_clause SP)])
  /\ forall row, where_holds db WhereFalse row = false.
Proof.
  intros Hp Hn. split; [now apply expand_without_keys | reflexivity].
Qed.

(** C5. When every seeded name is empty (so is an empty list), candidate
    blocking returns no candidate, and the only statement it executes is the
    schema introspection: no SELECT reaches the table. *)
Theorem candidate_block_without_keys
    (names : list str) (db : Database) (tr : list statement) :
  (forall n, In n names -> n = []) ->
  candidate_block_by_names SP names db tr
  = (Ok [], tr ++ [PragmaTableInfo "transactions"]).
Proof.
  intros Hall. apply block_without_keys, filter_nonempty_nil, Hall.
Qed.

(** C9. [search_by_seed_name] on the empty string returns the empty list
    and raises nothing: blocking executes the schema introspection only, and
    closure expansion executes the always-false select. *)
Theorem search_by_empty_seed_name_is_empty (db : Database) (tr : list statement) :
  search_by_seed_name TH SP [] db tr
  = (Ok [], tr ++ [PragmaTableInfo "transactions";
                   SelectStar WhereFalse (limit_clause SP)]).
Proof.
  unfold search_by_seed_name, bind. cbn [normalize_name].
  rewrite block_without_keys by reflexivity.
  cbn [filter map app r4 r0].
  rewrite expand_without_keys by reflexivity.
  now rewrite <- app_assoc.
Qed.

(** C7 (amended). When a row limit is set ([limit_return_rows] is not zero),
    closure expansion returns at most that many rows, and it does return
    when the table has the columns [pan_upper] and [name_norm]. *)
Theorem expand_respects_row_cap
    (pans names : list str) (db : Database) (tr : list statement) :
  limit_return_rows SP <> 0%nat ->
  (forall rows,
      fst (expand_all_transactions_for_entities SP pans names db tr) = Ok rows ->
      (List.length rows <= limit_return_rows SP)%nat)
  /\ (has_column db "pan_upper" = true -> has_column db "name_norm" = true ->
      exists rows,
        fst (expand_all_transactions_for_entities SP pans names db tr) = Ok rows).
Proof.
  intros Hcap.
  assert (Hlim : limit_clause SP = Some (limit_return_rows SP)).
  { unfold limit_clause. destruct (limit_return_rows SP); congruence. }
  unfold expand_all_transactions_for_entities. rewrite Hlim.
  set (ps := map _ (filter nonempty pans)). set (ns := set_to_list _).
  unfold execute_select_star. split.
  - intros rows. destruct (check_where db _); cbn [fst]; [|discriminate].
    intros E. injection E as <-. apply length_apply_limit.
  - intros Hpan Hname.
    destruct ps as [|p ps], ns as [|n ns]; cbn [app check_where check_preds pred_column];
      rewrite ?Hpan, ?Hname; cbn [negb fst]; eauto.
Qed.

End Retrieval.

Lemma expand_with_empty_sets_returns_nothing_witness :
  @expand_all_transactions_for_entities ucd_excerpt SP_example [[]] [] ledger_example []
  = (Ok [], [] ++ [SelectStar WhereFalse (limit_clause SP_example)])
  /\ forall row, where_holds ledger_example WhereFalse row = false.
Proof.
  apply (@expand_with_empty_sets_returns_nothing ucd_excerpt SP_example [[]] []);
    reflexivity.
Defined.

Lemma candidate_block_without_keys_witness :
  @candidate_block_by_names ucd_excerpt phonetics_upper SP_example [[]; []] ledger_example []
  = (Ok [], [] ++ [PragmaTableInfo "transactions"]).
Proof.
  apply (@candidate_block_without_keys ucd_excerpt phonetics_upper SP_example).
  intros n [<-|[<-|[]]]; reflexivity.
Defined.

Lemma expand_respects_row_cap_witness :
  (forall rows,
      fst (@expand_all_transactions_for_entities ucd_excerpt SP_example
             [py "abcde1234f"] [py "john doe"] ledger_example []) = Ok rows ->
      (List.length rows <= limit_return_rows SP_example)%nat)
  /\ (has_column ledger_example "pan_upper" = true ->
      has_column ledger_example "name_norm" = true ->
      exists rows,
        fst (@expand_all_transactions_for_entities ucd_excerpt SP_example
               [py "abcde1234f"] [py "john doe"] ledger_example []) = Ok rows).
Proof.
  apply (@expand_respects_row_cap ucd_excerpt SP_example). discriminate.
Defined.

(** C7 as stated fails when [limit_return_rows] is zero: no LIMIT is added
    and all three matching rows come back. *)
Lemma expand_uncapped_when_limit_is_zero :
  exists rows,
    @expand_all_transactions_for_entities ucd_excerpt SP_no_cap
       [] [py "john doe"] ledger_example []
    = (Ok rows, [SelectStar (WhereOr [ColIn "name_norm" [py "john doe"]]) None])
    /\ List.length rows = 3%nat
    /\ ~ (List.length rows <= limit_return_rows SP_no_cap)%nat.
Proof.
  eexists. split; [vm_compute; reflexivity|]. split; [reflexivity|].
  cbn. lia.
Qed.

(** ** Counting and ranking names *)

Section Ranking.

Lemma existsb_str_eqb (x : str) (l : list str) :
  existsb (str_eqb x) l = true <-> In x l.
Proof.
  rewrite existsb_exists. split.
  - intros [y [Hy E]]. apply str_eqb_eq in E. now subst.
  - intros Hx. exists x. split; [assumption | apply str_eqb_refl].
Qed.

Lemma first_seen_snoc (xs : list str) (k : str) :
  first_seen (xs ++ [k]) =
    if existsb (str_eqb k) (first_seen xs) then first_seen xs else first_seen xs ++ [k].
Proof. unfold first_seen. now rewrite fold_left_app. Qed.

Lemma first_seen_In (xs : list str) (k : str) : In k (first_seen xs) <-> In k xs.
Proof.
  induction xs as [|x xs IH] using rev_ind; [reflexivity|].
  rewrite first_seen_snoc, in_app_iff.
  destruct (existsb (str_eqb x) (first_seen xs)) eqn:E.
  - apply existsb_str_eqb in E. rewrite IH. simpl. split; [tauto|].
    intros [?|[<-|[]]]; [assumption | now apply IH].
  - rewrite in_app_iff, IH. reflexivity.
Qed.

Lemma first_seen_nil (xs : list str) : first_seen xs = [] -> xs = [].
Proof.
  intros E. destruct xs as [|x xs]; [reflexivity|].
  assert (Hx : In x (first_seen (x :: xs))) by (apply first_seen_In; now left).
  rewrite E in Hx. destruct Hx.
Qed.

Lemma first_seen_NoDup (xs : list str) : NoDup (first_seen xs).
Proof.
  induction xs as [|x xs IH] using rev_ind; [constructor|].
  rewrite first_seen_snoc.
  destruct (existsb (str_eqb x) (first_seen xs)) eqn:E; [assumption|].
  apply NoDup_rev in IH. rewrite <- (rev_involutive (_ ++ _)), rev_app_distr.
  apply NoDup_rev. simpl. constructor; [|assumption].
  rewrite <- in_rev. intros Hin. apply existsb_str_eqb in Hin. congruence.
Qed.

Lemma first_index_app_in (a : str) (xs ys : list str) :
  In a xs -> first_index a (xs ++ ys) = first_index a xs.
Proof.
  induction xs as [|x xs IH]; simpl; [tauto|].
  intros Hin. destruct (str_eqb a x) eqn:E; [reflexivity|].
  f_equal. apply IH. destruct Hin as [->|Hin]; [|assumption].
  now rewrite str_eqb_refl in E.
Qed.

Lemma first_index_lt_length (a : str) (xs : list str) :
  In a xs -> (first_index a xs < List.length xs)%nat.
Proof.
  induction xs as [|x xs IH]; simpl; [tauto|].
  intros Hin. destruct (str_eqb a x) eqn:E; [lia|].
  apply -> Nat.succ_lt_mono. apply IH. destruct Hin as [->|Hin]; [|assumption].
  now rewrite str_eqb_refl in E.
Qed.

Lemma first_index_app_notin (a : str) (xs ys : list str) :
  ~ In a xs -> first_index a (xs ++ ys) = (List.length xs + first_index a ys)%nat.
Proof.
  induction xs as [|x xs IH]; simpl; [reflexivity|].
  intros Hnin. destruct (str_eqb a x) eqn:E.
  - apply str_eqb_eq in E. exfalso. apply Hnin. left. congruence.
  - f_equal. apply IH. tauto.
Qed.

Lemma StronglySorted_impl_in {A} (R R' : A -> A -> Prop) (l : list A) :
  (forall a b, In a l -> In b l -> R a b -> R' a b) ->
  StronglySorted R l -> StronglySorted R' l.
Proof.
  induction l as [|x l IH]; intros Himp Hs; [constructor|].
  inversion Hs as [|? ? Hs' Hall]; subst. constructor.
  - apply IH; [|assumption]. intros a b Ha Hb. apply Himp; now right.
  - rewrite Forall_forall in *. intros b Hb. apply Himp; [now left | now right | auto].
Qed.

Lemma StronglySorted_snoc {A} (R : A -> A -> Prop) (l : list A) (k : A) :
  StronglySorted R l -> Forall (fun a => R a k) l -> StronglySorted R (l ++ [k]).
Proof.
  induction l as [|x l IH]; intros Hs Hall; simpl.
  - repeat constructor.
  - inversion Hs as [|? ? Hs' Hx]; subst. inversion Hall as [|? ? Hxk Hall']; subst.
    constructor; [now apply IH|].
    apply Forall_app. split; [assumption | now constructor].
Qed.

Lemma StronglySorted_app_inv {A} (R : A -> A -> Prop) (l1 l2 : list A) :
  StronglySorted R (l1 ++ l2) ->
  StronglySorted R l1 /\ forall a b, In a l1 -> In b l2 -> R a b.
Proof.
  induction l1 as [|x l1 IH]; simpl; intros Hs.
  - split; [constructor | tauto].
  - inversion Hs as [|? ? Hs' Hx]; subst. destruct (IH Hs') as [H1 H2].
    apply Forall_app in Hx as [Hx1 Hx2]. split.
    + now constructor.
    + intros a b [<-|Ha] Hb; [|now apply H2].
      rewrite Forall_forall in Hx2. now apply Hx2.
Qed.

Lemma StronglySorted_map_in {A B} (f : A -> B) (R : A -> A -> Prop)
    (R' : B -> B -> Prop) (l : list A) :
  (forall a b, In a l -> In b l -> R a b -> R' (f a) (f b)) ->
  StronglySorted R l -> StronglySorted R' (map f l).
Proof.
  induction l as [|x l IH]; intros Himp Hs; simpl; [constructor|].
  inversion Hs as [|? ? Hs' Hall]; subst. constructor.
  - apply IH; [|assumption]. intros a b Ha Hb. apply Himp; now right.
  - rewrite Forall_forall in *. intros b Hb. apply in_map_iff in Hb as [a [<- Ha]].
    apply Himp; [now left | now right | auto].
Qed.

(** The keys of a counter come in first-seen order. *)
Lemma first_seen_ordered (xs : list str) :
  StronglySorted (fun a b => (first_index a xs < first_index b xs)%nat) (first_seen xs).
Proof.
  induction xs as [|x xs IH] using rev_ind; [constructor|].
  assert (Hold : StronglySorted
            (fun a b => (first_index a (xs ++ [x]) < first_index b (xs ++ [x]))%nat)
            (first_seen xs)).
  { revert IH. apply StronglySorted_impl_in. intros a b Ha Hb.
    apply (proj1 (first_seen_In _ _)) in Ha, Hb.
    now rewrite !first_index_app_in by assumption. }
  rewrite first_seen_snoc.
  destruct (existsb (str_eqb x) (first_seen xs)) eqn:E; [assumption|].
  apply StronglySorted_snoc; [assumption|].
  assert (Hx : ~ In x xs).
  { rewrite <- first_seen_In, <- existsb_str_eqb. congruence. }
  apply Forall_forall. intros a Ha. apply (proj1 (first_seen_In _ _)) in Ha.
  rewrite first_index_app_in, first_index_app_notin by assumption.
  pose proof (first_index_lt_length a xs Ha). lia.
Qed.

(** One more occurrence of [k] in a counter whose keys are distinct. *)
Lemma counter_incr_closed (k : str) (f f' : str -> nat) (l : list str) :
  NoDup l ->
  (forall a, a <> k -> f' a = f a) -> f' k = S (f k) -> (~ In k l -> f k = 0%nat) ->
  counter_incr k (map (fun a => (a, f a)) l) =
    map (fun a => (a, f' a)) (if existsb (str_eqb k) l then l else l ++ [k]).
Proof.
  intros Hnd Hother Hk Hzero. induction l as [|a l IH]; simpl.
  - rewrite Hk, Hzero by tauto. reflexivity.
  - inversion Hnd as [|? ? Ha Hnd']; subst.
    destruct (str_eqb k a) eqn:E.
    + apply str_eqb_eq in E. subst a. cbn [orb map]. rewrite Hk. f_equal.
      apply map_ext_in. intros b Hb. rewrite Hother; [reflexivity|congruence].
    + apply str_eqb_neq in E. cbn [orb]. rewrite IH; [| assumption | simpl in Hzero; intuition congruence].
      destruct (existsb (str_eqb k) l); cbn [map app]; rewrite Hother; congruence.
Qed.

(** [Counter(xs)] in closed form. *)
Lemma Counter_closed (xs : list str) :
  Counter xs = map (fun a => (a, frequency xs a)) (first_seen xs).
Proof.
  induction xs as [|x xs IH] using rev_ind; [reflexivity|].
  unfold Counter in *. rewrite fold_left_app. cbn [fold_left]. rewrite IH.
  rewrite first_seen_snoc. unfold frequency. apply counter_incr_closed.
  - apply first_seen_NoDup.
  - intros a Ha. rewrite count_occ_app. simpl.
    destruct (str_eq_dec x a); [congruence | lia].
  - rewrite count_occ_app. simpl. destruct (str_eq_dec x x); [lia | congruence].
  - intros Hnin. apply count_occ_not_In. now rewrite <- first_seen_In.
Qed.

(** *** The stable descending sort *)

Lemma insert_by_count_perm (x : str * nat) (l : counter) :
  Permutation (insert_by_count x l) (x :: l).
Proof.
  induction l as [|y l IH]; simpl; [reflexivity|].
  destruct (snd x <? snd y)%nat; [|reflexivity].
  rewrite IH. apply perm_swap.
Qed.

Lemma sorted_by_count_desc_perm (items : counter) :
  Permutation (sorted_by_count_desc items) items.
Proof.
  induction items as [|x items IH]; simpl; [reflexivity|].
  rewrite insert_by_count_perm. now constructor.
Qed.

Section Stability.
Variable R : str * nat -> str * nat -> Prop.

Lemma by_count_then_ge (e1 e2 : str * nat) : by_count_then R e1 e2 -> (snd e2 <= snd e1)%nat.
Proof. unfold by_count_then. lia. Qed.

Lemma insert_by_count_sorted (x : str * nat) (l : counter) :
  StronglySorted (by_count_then R) l -> Forall (R x) l ->
  StronglySorted (by_count_then R) (insert_by_count x l).
Proof.
  induction l as [|y l IH]; intros Hs Hall; simpl.
  - repeat constructor.
  - inversion Hs as [|? ? Hs' Hy]; subst. inversion Hall as [|? ? Hxy Hall']; subst.
    destruct (Nat.ltb_spec (snd x) (snd y)) as [Hlt|Hge].
    + constructor; [now apply IH|].
      rewrite Forall_forall in *. intros e He.
      apply (Permutation_in _ (insert_by_count_perm x l)) in He.
      destruct He as [<-|He]; [now left | now apply Hy].
    + constructor; [assumption|]. constructor.
      * unfold by_count_then. destruct (Nat.eq_dec (snd x) (snd y)); [right|left]; auto; lia.
      * rewrite Forall_forall in *. intros e He.
        pose proof (by_count_then_ge _ _ (Hy e He)) as Hle.
        unfold by_count_then.
        destruct (Nat.eq_dec (snd x) (snd e)); [right|left]; auto; lia.
Qed.

Lemma sorted_by_count_desc_stable (items : counter) :
  StronglySorted R items -> StronglySorted (by_count_then R) (sorted_by_count_desc items).
Proof.
  induction items as [|x items IH]; intros Hs; simpl; [constructor|].
  inversion Hs as [|? ? Hs' Hx]; subst.
  apply insert_by_count_sorted; [now apply IH|].
  rewrite Forall_forall in *. intros e He. apply Hx.
  now apply (Permutation_in _ (sorted_by_count_desc_perm items)).
Qed.

End Stability.

(** *** The canonical names *)

Lemma Counter_seen_earlier (names : list str) :
  StronglySorted (seen_earlier names) (Counter names).
Proof.
  rewrite Counter_closed.
  apply StronglySorted_map_in with (R := fun a b => (first_index a names < first_index b names)%nat).
  - intros a b _ _ Hab. exact Hab.
  - apply first_seen_ordered.
Qed.

Lemma ranked_entries (names : list str) :
  let ranked := sorted_by_count_desc (Counter names) in
  StronglySorted (by_count_then (seen_earlier names)) ranked
  /\ Permutation (map fst ranked) (first_seen names)
  /\ (forall e, In e ranked -> snd e = frequency names (fst e)).
Proof.
  cbn zeta. split; [|split].
  - apply sorted_by_count_desc_stable, Counter_seen_earlier.
  - rewrite sorted_by_count_desc_perm, Counter_closed, map_map. cbn [fst].
    now rewrite map_id.
  - intros e He. apply (Permutation_in _ (sorted_by_count_desc_perm _)) in He.
    rewrite Counter_closed in He. apply in_map_iff in He as [a [<- _]]. reflexivity.
Qed.

Lemma by_count_then_ranks (names : list str) (e1 e2 : str * nat) :
  snd e1 = frequency names (fst e1) -> snd e2 = frequency names (fst e2) ->
  by_count_then (seen_earlier names) e1 e2 -> ranks_before names (fst e1) (fst e2).
Proof.
  unfold by_count_then, seen_earlier, ranks_before. intros <- <-. tauto.
Qed.

Lemma counted_names_nil (rows : list ostr) :
  counted_names rows = [] <-> ~ Exists (fun r => truthy r = true) rows.
Proof.
  unfold counted_names. induction rows as [|r rows IH]; simpl.
  - split; [intros _ E; inversion E | reflexivity].
  - destruct (truthy r) eqn:Hr; simpl.
    + split; [discriminate | intros Hn; exfalso; apply Hn; now left].
    + rewrite IH. split; intros Hn E; apply Hn.
      * inversion E; subst; [congruence | assumption].
      * now right.
Qed.

(** C3 (amended). The canonical names are at most three distinct names taken
    from the rows' non-empty names; they are listed by descending frequency,
    a tie going to the name seen first, and every name left out ranks after
    every name listed.  The list is empty exactly when no row carries a
    non-empty name. *)
Theorem pick_canonical_names_ranking (rows : list ostr) :
  let names := counted_names rows in
  let picked := pick_canonical_names rows in
  (List.length picked <= 3)%nat
  /\ NoDup picked
  /\ (forall a, In a picked -> In a names)
  /\ StronglySorted (ranks_before names) picked
  /\ (forall a b, In a picked -> In b names -> ~ In b picked -> ranks_before names a b)
  /\ (picked = [] <-> ~ Exists (fun r => truthy r = true) rows).
Proof.
  cbn zeta. rewrite <- counted_names_nil.
  cbn zeta. unfold pick_canonical_names, most_common.
  fold (counted_names rows).
  assert (Hempty : counted_names rows = [] ->
                   map fst (firstn 3 (sorted_by_count_desc (Counter (counted_names rows)))) = [])
    by (intros ->; reflexivity).
  set (names := counted_names rows) in *.
  destruct (ranked_entries names) as [Hsorted [Hperm Hfreq]]. cbn zeta in *.
  set (ranked := sorted_by_count_desc (Counter names)) in *.
  assert (Hsplit : ranked = firstn 3 ranked ++ skipn 3 ranked)
    by (symmetry; apply firstn_skipn).
  assert (Hnd : NoDup (map fst ranked)).
  { apply (Permutation_NoDup (Permutation_sym Hperm)), first_seen_NoDup. }
  assert (Hin3 : forall e, In e (firstn 3 ranked) -> In e ranked).
  { intros e He. rewrite Hsplit. apply in_app_iff. now left. }
  rewrite Hsplit in Hsorted. apply StronglySorted_app_inv in Hsorted as [Hs1 Hs2].
  repeat split.
  - rewrite length_map. apply firstn_le_length.
  - rewrite Hsplit, map_app in Hnd. now apply NoDup_app_remove_r in Hnd.
  - intros a Ha. apply in_map_iff in Ha as [e [<- He]].
    apply first_seen_In, (Permutation_in _ Hperm), in_map, Hin3, He.
  - revert Hs1. apply StronglySorted_map_in. intros e1 e2 H1 H2.
    apply by_count_then_ranks; apply Hfreq; auto.
  - intros a b Ha Hb Hnb. apply in_map_iff in Ha as [e1 [<- He1]].
    apply first_seen_In, (Permutation_in _ (Permutation_sym Hperm)) in Hb.
    apply in_map_iff in Hb as [e2 [<- He2]].
    apply by_count_then_ranks; [apply Hfreq; auto | now apply Hfreq |].
    apply Hs2; [assumption|].
    rewrite Hsplit in He2. apply in_app_iff in He2 as [He2|He2]; [|assumption].
    exfalso. apply Hnb. now apply in_map.
  - intros Hnil. destruct ranked as [|e ranked'] eqn:Er.
    + apply Permutation_nil in Hperm. now apply first_seen_nil.
    + discriminate.
  - exact Hempty.
Qed.

End Ranking.

(** C3 as stated fails on a seed whose only row has an empty name: the PAN
    matches one row, and no canonical name comes out of it. *)
Lemma canonical_names_empty_for_nameless_row :
  exists base_rows,
    fst (@fetch_rows_for_pan ucd_excerpt (Some (py "abcde1234f")) ledger_nameless [])
      = Ok base_rows
    /\ List.length base_rows = 1%nat
    /\ pick_canonical_names (map r0 base_rows) = [].
Proof. eexists. repeat split. Qed.

(** ** Whitespace folding *)

Section Whitespace.
Context `{Unicode}.

Lemma lstrip_snoc (l : str) (c : Z) :
  lstrip (l ++ [c]) =
    match lstrip l with
    | [] => if isspace c then [] else [c]
    | t => t ++ [c]
    end.
Proof.
  induction l as [|a l IH]; simpl.
  - now destruct (isspace c).
  - destruct (isspace a); [exact IH | reflexivity].
Qed.

(** [rstrip] by recursion from the left. *)
Lemma rstrip_cons (c : Z) (r : str) :
  rstrip (c :: r) =
    match rstrip r with
    | [] => if isspace c then [] else [c]
    | t => c :: t
    end.
Proof.
  unfold rstrip. simpl. rewrite lstrip_snoc.
  destruct (lstrip (rev r)) as [|x t]; simpl.
  - now destruct (isspace c).
  - rewrite rev_app_distr. simpl.
    destruct (rev t ++ [x]) eqn:E; [|reflexivity].
    now destruct (rev t).
Qed.

Lemma rstrip_cons_nonspace (c : Z) (r : str) :
  isspace c = false -> rstrip (c :: r) = c :: rstrip r.
Proof. intros Hc. rewrite rstrip_cons, Hc. now destruct (rstrip r). Qed.

Lemma re_sub_ws_cons (repl : str) (c : Z) (s : str) :
  re_sub_ws repl (c :: s) =
    if isspace c then repl ++ re_sub_ws_run repl s else c :: re_sub_ws repl s.
Proof. reflexivity. Qed.

Lemma re_sub_ws_run_cons (repl : str) (c : Z) (s : str) :
  re_sub_ws_run repl (c :: s) =
    if isspace c then re_sub_ws_run repl s else c :: re_sub_ws repl s.
Proof. reflexivity. Qed.

Lemma lstrip_re_sub_ws_run (repl s : str) :
  lstrip (re_sub_ws_run repl s) = re_sub_ws_run repl s.
Proof.
  induction s as [|c s IH]; simpl; [reflexivity|].
  destruct (isspace c) eqn:Hc; [exact IH|]. simpl. now rewrite Hc.
Qed.

Lemma words_nonempty (s : str) : Forall (fun w => w <> []) (words s).
Proof.
  induction s as [|c s IH]; simpl; [constructor|].
  destruct (isspace c); [assumption|].
  destruct s as [|d s']; [repeat constructor; discriminate|].
  destruct (isspace d).
  - constructor; [discriminate | assumption].
  - destruct (words (d :: s')) as [|w ws]; simpl.
    + repeat constructor; discriminate.
    + inversion IH; subst. constructor; [discriminate | assumption].
Qed.

Lemma words_nonspace_head (d : Z) (s : str) :
  isspace d = false -> words (d :: s) <> [].
Proof.
  intros Hd. simpl. rewrite Hd. destruct s as [|e s']; [discriminate|].
  destruct (isspace e); [discriminate|].
  destruct (words (e :: s')); discriminate.
Qed.

Lemma unwords_push_char (c : Z) (ws : list str) :
  ws <> [] -> unwords (push_char c ws) = c :: unwords ws.
Proof. destruct ws; [congruence | reflexivity]. Qed.

Hypothesis isspace_SPACE : isspace SPACE = true.

Lemma lstrip_re_sub_ws (s : str) :
  lstrip (re_sub_ws [SPACE] s) = re_sub_ws_run [SPACE] s.
Proof.
  destruct s as [|c s]; [reflexivity|]. simpl.
  destruct (isspace c) eqn:Hc; simpl.
  - rewrite isspace_SPACE. apply lstrip_re_sub_ws_run.
  - now rewrite Hc.
Qed.

Lemma rstrip_re_sub_ws (s : str) :
  rstrip (re_sub_ws_run [SPACE] s) = unwords (words s)
  /\ rstrip (re_sub_ws [SPACE] s) =
       match s with
       | [] => []
       | c :: _ =>
           if isspace c then flat_map (fun v => SPACE :: v) (words s)
           else unwords (words s)
       end.
Proof.
  induction s as [|c s [IHrun IHsub]]; [split; reflexivity|].
  assert (Hns : isspace c = false ->
                rstrip (c :: re_sub_ws [SPACE] s) = unwords (words (c :: s))).
  { intros Hc. rewrite rstrip_cons_nonspace, IHsub by assumption.
    simpl. rewrite Hc. destruct s as [|d s']; [reflexivity|].
    destruct (isspace d) eqn:Hd; [reflexivity|].
    now rewrite unwords_push_char by now apply words_nonspace_head. }
  rewrite re_sub_ws_cons, re_sub_ws_run_cons. cbv beta iota.
  destruct (isspace c) eqn:Hc.
  - assert (Hw : words (c :: s) = words s) by (simpl; now rewrite Hc).
    rewrite Hw. split; [exact IHrun|].
    simpl. rewrite rstrip_cons, IHrun, isspace_SPACE.
    pose proof (words_nonempty s) as Hne.
    destruct (words s) as [|w ws]; [reflexivity|].
    inversion Hne; subst. simpl. destruct w; [congruence | reflexivity].
  - split; apply Hns; reflexivity.
Qed.

(** Collapsing whitespace runs and trimming leaves the tokens, one space apart. *)
Lemma normalize_whitespace_unwords (s : str) :
  normalize_whitespace s = unwords (words s).
Proof.
  unfold normalize_whitespace, strip. rewrite lstrip_re_sub_ws.
  apply rstrip_re_sub_ws.
Qed.

(** C2 (amended). [normalize_name] returns the empty string on absent or
    empty input, and otherwise the input after, in order: NFC; replacing by a
    space every code point that is not alphanumeric, the underscore,
    whitespace or in U+0900..U+097F; collapsing whitespace runs to one space
    and trimming; lower-casing. *)
Theorem normalize_name_steps (raw : ostr) :
  normalize_name raw = normalize_steps word_space_devanagari raw.
Proof.
  unfold normalize_name, normalize_steps.
  destruct raw as [[|c s]|]; try reflexivity.
  cbn zeta. rewrite normalize_whitespace_unwords.
  unfold normalize_punct, to_nfc. do 3 f_equal. apply map_ext. intros cp.
  unfold re_punct, word_space_devanagari, re_word, in_devanagari_block, DEVANAGARI_BLOCK.
  cbn [fst snd]. now destruct (_ || _).
Qed.

End Whitespace.

Lemma normalize_name_steps_witness :
  @normalize_name ucd_excerpt (Some (py "  John_Doe,  jr. "))
  = @normalize_steps ucd_excerpt (@word_space_devanagari ucd_excerpt)
      (Some (py "  John_Doe,  jr. ")).
Proof. apply (@normalize_name_steps ucd_excerpt). reflexivity. Defined.

(** C2 as stated fails on the underscore: it is no letter, digit, whitespace
    or Devanagari code point, and [normalize_name] keeps it. *)
Lemma normalize_name_keeps_underscore :
  @normalize_name ucd_excerpt (Some (py "a_b")) = py "a_b"
  /\ @normalize_steps ucd_excerpt (@letter_digit_space_devanagari ucd_excerpt)
       (Some (py "a_b")) = py "a b"
  /\ py "a_b" <> py "a b".
Proof. repeat split. discriminate. Qed.

(** ** Idempotence of the normaliser *)

Ltac no_branch t :=
  lazymatch t with
  | context [if _ then _ else _] => fail
  | _ => idtac
  end.

Ltac ascii_cases :=
  unfold ascii_isalnum, ascii_isspace, ascii_lower, ascii_upper, in_devanagari_block,
    DEVANAGARI_BLOCK, is_ascii, SPACE, UNDERSCORE, CAPITAL_I_DOT in *;
  cbn [fst snd] in *;
  repeat (match goal with
          | |- context [?a <=? ?b] => no_branch a; no_branch b; destruct (Z.leb_spec a b)
          | |- context [?a =? ?b] => no_branch a; no_branch b; destruct (Z.eqb_spec a b)
          end; cbn [andb orb negb]);
  try reflexivity; try lia.

Lemma ascii_lower_isspace (c : Z) : ascii_isspace (ascii_lower c) = ascii_isspace c.
Proof. ascii_cases. Qed.

Lemma ascii_lower_isalnum (c : Z) : ascii_isalnum (ascii_lower c) = ascii_isalnum c.
Proof. ascii_cases. Qed.

Lemma ascii_lower_underscore (c : Z) : (ascii_lower c =? UNDERSCORE) = (c =? UNDERSCORE).
Proof. ascii_cases. Qed.

Lemma ascii_lower_idem (c : Z) : ascii_lower (ascii_lower c) = ascii_lower c.
Proof. ascii_cases. Qed.

Lemma ascii_lower_is_ascii (c : Z) : is_ascii c -> is_ascii (ascii_lower c).
Proof. intros Hc. ascii_cases. Qed.

Lemma ascii_not_devanagari (c : Z) : is_ascii c -> in_devanagari_block c = false.
Proof. intros Hc. ascii_cases. Qed.

Lemma ascii_lower_SPACE : ascii_lower SPACE = SPACE.
Proof. reflexivity. Qed.

Lemma ucd_excerpt_ascii_faithful : AsciiFaithful ucd_excerpt.
Proof.
  constructor; cbn [isalnum isspace nfc str_lower ucd_excerpt]; try reflexivity.
  - intros cp Hcp. ascii_cases.
  - intros s Hs. induction Hs as [|cp s Hcp _ IH]; simpl; [reflexivity|].
    rewrite IH. f_equal. unfold is_ascii, CAPITAL_I_DOT in *.
    destruct (Z.eqb_spec cp 304); [lia | reflexivity].
Qed.

Lemma ucd_excerpt_dotted_i_faithful : DottedIFaithful ucd_excerpt.
Proof. constructor; reflexivity. Qed.

Section Tokens.
Context `{Unicode}.

Lemma words_chars (s : str) :
  Forall (Forall (fun c => In c s /\ isspace c = false)) (words s).
Proof.
  induction s as [|c s IH]; [constructor|].
  assert (IH' : Forall (Forall (fun x => In x (c :: s) /\ isspace x = false)) (words s)).
  { revert IH. apply Forall_impl. intros w. apply Forall_impl.
    intros x [Hx Hs]. split; [now right | assumption]. }
  simpl. destruct (isspace c) eqn:Hc; [exact IH'|].
  assert (Hc' : In c (c :: s) /\ isspace c = false) by (split; [now left | assumption]).
  destruct s as [|d s']; [repeat constructor; apply Hc'|].
  destruct (isspace d).
  - constructor; [repeat constructor; apply Hc' | exact IH'].
  - destruct (words (d :: s')) as [|w ws]; simpl.
    + repeat constructor; apply Hc'.
    + inversion IH'; subst. constructor; [constructor|]; assumption.
Qed.

Lemma Forall_unwords (P : Z -> Prop) (ws : list str) :
  P SPACE -> Forall (Forall P) ws -> Forall P (unwords ws).
Proof.
  intros Hsp Hws. destruct Hws as [|w ws Hw Hws]; [constructor|].
  simpl. apply Forall_app. split; [assumption|].
  induction Hws as [|v ws Hv _ IH]; simpl; [constructor|].
  constructor; [assumption|]. apply Forall_app. now split.
Qed.

Lemma map_unwords (f : Z -> Z) (ws : list str) :
  f SPACE = SPACE -> map f (unwords ws) = unwords (map (map f) ws).
Proof.
  intros Hsp. destruct ws as [|w ws]; [reflexivity|].
  simpl. rewrite map_app. f_equal.
  induction ws as [|v ws IH]; simpl; [reflexivity|].
  now rewrite map_app, Hsp, IH.
Qed.

Lemma normalize_punct_kept (s : str) :
  Forall (fun c => re_punct c = false) s -> normalize_punct s = s.
Proof.
  unfold normalize_punct. induction 1 as [|c s Hc _ IH]; simpl; [reflexivity|].
  now rewrite Hc, IH.
Qed.

Hypothesis isspace_SPACE : isspace SPACE = true.

Lemma re_punct_SPACE : re_punct SPACE = false.
Proof.
  unfold re_punct. rewrite isspace_SPACE. now rewrite orb_true_r.
Qed.

Lemma normalize_punct_chars (P : Z -> Prop) (s : str) :
  P SPACE -> Forall P s -> Forall (fun c => P c /\ re_punct c = false) (normalize_punct s).
Proof.
  intros Hsp. unfold normalize_punct. induction 1 as [|c s Hc _ IH]; simpl; constructor.
  - destruct (re_punct c) eqn:E; split; auto using re_punct_SPACE.
  - exact IH.
Qed.

(** A token followed by nothing or by a space is the first token. *)
Lemma words_app_word (w rest : str) :
  w <> [] -> Forall (fun c => isspace c = false) w ->
  (rest = [] \/ exists r, rest = SPACE :: r) ->
  words (w ++ rest) = w :: words rest.
Proof.
  intros Hne Hw Hrest. induction Hw as [|c w Hc Hw IH]; [congruence|].
  destruct w as [|c' w'].
  - simpl. rewrite Hc. destruct Hrest as [->|[r ->]]; [reflexivity|].
    now rewrite isspace_SPACE.
  - change (words ((c :: c' :: w') ++ rest))
      with (words (c :: (c' :: w') ++ rest)).
    inversion Hw; subst.
    assert (E : words (c :: (c' :: w') ++ rest) =
                push_char c (words ((c' :: w') ++ rest))).
    { simpl. rewrite Hc. now match goal with Hx : isspace c' = false |- _ => rewrite Hx end. }
    rewrite E, IH by discriminate. reflexivity.
Qed.

Lemma words_spaced (ws : list str) :
  Forall (fun w => w <> [] /\ Forall (fun c => isspace c = false) w) ws ->
  words (flat_map (fun v => SPACE :: v) ws) = ws.
Proof.
  induction 1 as [|w ws [Hne Hw] _ IH]; [reflexivity|].
  cbn [flat_map app].
  assert (E : forall x, words (SPACE :: x) = words x)
    by (intros x; simpl; now rewrite isspace_SPACE).
  rewrite E, words_app_word, IH; try assumption; [reflexivity|].
  destruct ws; [now left | right; eexists; reflexivity].
Qed.

(** Tokens joined by single spaces split back into the same tokens. *)
Lemma words_unwords (ws : list str) :
  Forall (fun w => w <> [] /\ Forall (fun c => isspace c = false) w) ws ->
  words (unwords ws) = ws.
Proof.
  intros Hws. destruct Hws as [|w ws [Hne Hw] Hws]; [reflexivity|].
  simpl. rewrite words_app_word, words_spaced; try assumption; [reflexivity|].
  destruct ws; [now left | right; eexists; reflexivity].
Qed.

End Tokens.

Section AsciiIdempotence.
Context {U : Unicode}.
Hypothesis AF : AsciiFaithful U.

Lemma af_isspace_SPACE : isspace SPACE = true.
Proof. rewrite (af_isspace U AF); [reflexivity | unfold is_ascii, SPACE; lia]. Qed.

Lemma ascii_lower_word_char (c : Z) : word_char c -> word_char (ascii_lower c).
Proof.
  intros [Hc [Hs Hp]]. pose proof (ascii_lower_is_ascii c Hc) as Hl.
  assert (Hs' : isspace (ascii_lower c) = false).
  { rewrite (af_isspace U AF), ascii_lower_isspace, <- (af_isspace U AF); assumption. }
  repeat split; try assumption; try apply Hl.
  unfold re_punct, re_word in *. rewrite Hs' , Hs in *.
  rewrite (af_isalnum U AF), ascii_lower_isalnum, <- (af_isalnum U AF) by assumption.
  rewrite ascii_lower_underscore.
  pose proof (ascii_not_devanagari _ Hc) as Hd. pose proof (ascii_not_devanagari _ Hl) as Hd'.
  unfold in_devanagari_block, DEVANAGARI_BLOCK in Hd, Hd'. cbn [fst snd] in Hd, Hd'.
  rewrite Hd' . now rewrite Hd in Hp.
Qed.

Lemma word_ok_nonspace (ws : list str) :
  Forall word_ok ws ->
  Forall (fun w => w <> [] /\ Forall (fun c => isspace c = false) w) ws.
Proof.
  apply Forall_impl. intros w [Hne Hw]. split; [assumption|].
  revert Hw. apply Forall_impl. now intros c [_ [Hs _]].
Qed.

Lemma words_of_normalize_punct (x : str) :
  Forall is_ascii x -> Forall word_ok (words (normalize_punct x)).
Proof.
  intros Hx.
  pose proof (normalize_punct_chars af_isspace_SPACE is_ascii x) as Hz.
  assert (Hsp : is_ascii SPACE) by (unfold is_ascii, SPACE; lia).
  specialize (Hz Hsp Hx). rewrite Forall_forall in Hz.
  pose proof (words_nonempty (normalize_punct x)) as Hne.
  pose proof (words_chars (normalize_punct x)) as Hch.
  rewrite Forall_forall in *. intros w Hw. split; [now apply Hne|].
  specialize (Hch w Hw). revert Hch. apply Forall_impl.
  intros c [Hin Hs]. destruct (Hz c Hin). unfold word_char. auto.
Qed.

Lemma lowered_words_ok (ws : list str) :
  Forall word_ok ws -> Forall word_ok (map (map ascii_lower) ws).
Proof.
  intros Hws. apply Forall_map. revert Hws. apply Forall_impl.
  intros w [Hne Hw]. split.
  - destruct w; [congruence | discriminate].
  - apply Forall_map. revert Hw. apply Forall_impl. apply ascii_lower_word_char.
Qed.

Lemma unwords_ok_chars (ws : list str) :
  Forall word_ok ws ->
  Forall (fun c => is_ascii c /\ re_punct c = false) (unwords ws).
Proof.
  intros Hws. apply Forall_unwords.
  - split; [unfold is_ascii, SPACE; lia | apply re_punct_SPACE, af_isspace_SPACE].
  - revert Hws. apply Forall_impl. intros w [_ Hw]. revert Hw. apply Forall_impl.
    now intros c [Ha [_ Hp]].
Qed.

(** The normalised form of non-empty ASCII text: its tokens, lower-cased
    and one space apart. *)
Lemma normalize_name_ascii (x : str) :
  x <> [] -> Forall is_ascii x ->
  normalize_name (Some x) = unwords (map (map ascii_lower) (words (normalize_punct x))).
Proof.
  intros Hne Hx. unfold normalize_name. destruct x as [|c0 x0]; [congruence|].
  cbn zeta. unfold to_nfc. rewrite (af_nfc U AF) by assumption.
  rewrite (normalize_whitespace_unwords af_isspace_SPACE).
  pose proof (unwords_ok_chars _ (words_of_normalize_punct _ Hx)) as Hch.
  rewrite (af_lower U AF).
  - apply map_unwords, ascii_lower_SPACE.
  - revert Hch. apply Forall_impl. now intros c [Ha _].
Qed.

(** Text made of lower-cased tokens one space apart is its own normal form. *)
Lemma normalize_name_normal_form (ws : list str) :
  Forall word_ok ws ->
  normalize_name (Some (unwords (map (map ascii_lower) ws)))
  = unwords (map (map ascii_lower) ws).
Proof.
  intros Hws. apply lowered_words_ok in Hws.
  set (ws' := map (map ascii_lower) ws) in *.
  pose proof (unwords_ok_chars ws' Hws) as Hch.
  assert (Hascii : Forall is_ascii (unwords ws')).
  { revert Hch. apply Forall_impl. now intros c [Ha _]. }
  assert (Hkept : Forall (fun c => re_punct c = false) (unwords ws')).
  { revert Hch. apply Forall_impl. now intros c [_ Hp]. }
  destruct (unwords ws') as [|c y] eqn:Ey; [reflexivity|].
  rewrite <- Ey in *. rewrite normalize_name_ascii by (rewrite ?Ey; congruence || assumption).
  rewrite normalize_punct_kept by assumption.
  rewrite (words_unwords af_isspace_SPACE) by now apply word_ok_nonspace.
  unfold ws'. rewrite map_map. f_equal. apply map_ext. intros w.
  rewrite map_map. apply map_ext. apply ascii_lower_idem.
Qed.

End AsciiIdempotence.

Section LowerClosedAlphabet.
Context {U : Unicode} (A : Z -> Prop) (lc : Z -> Z).
Hypothesis A_SPACE : A SPACE.
Hypothesis isspace_SPACE : isspace SPACE = true.
Hypothesis lc_SPACE : lc SPACE = SPACE.
Hypothesis lc_token : forall c, token_char A c -> token_char A (lc c).
Hypothesis lc_idem : forall c, token_char A c -> lc (lc c) = lc c.
Hypothesis lower_lc : forall s, Forall A s -> str_lower s = map lc s.

Lemma token_ok_nonspace (ws : list str) :
  Forall (token_ok A) ws ->
  Forall (fun w => w <> [] /\ Forall (fun c => isspace c = false) w) ws.
Proof.
  apply Forall_impl. intros w [Hne Hw]. split; [assumption|].
  revert Hw. apply Forall_impl. now intros c [_ [Hs _]].
Qed.

Lemma tokens_of_normalize_punct (x : str) :
  Forall A x -> Forall (token_ok A) (words (normalize_punct x)).
Proof.
  intros Hx.
  pose proof (normalize_punct_chars isspace_SPACE A x A_SPACE Hx) as Hz.
  rewrite Forall_forall in Hz.
  pose proof (words_nonempty (normalize_punct x)) as Hne.
  pose proof (words_chars (normalize_punct x)) as Hch.
  rewrite Forall_forall in *. intros w Hw. split; [now apply Hne|].
  specialize (Hch w Hw). revert Hch. apply Forall_impl.
  intros c [Hin Hs]. destruct (Hz c Hin). unfold token_char. auto.
Qed.

Lemma lowered_tokens_ok (ws : list str) :
  Forall (token_ok A) ws -> Forall (token_ok A) (map (map lc) ws).
Proof.
  intros Hws. apply Forall_map. revert Hws. apply Forall_impl.
  intros w [Hne Hw]. split.
  - destruct w; [congruence | discriminate].
  - apply Forall_map. revert Hw. apply Forall_impl. apply lc_token.
Qed.

Lemma unwords_tokens_chars (ws : list str) :
  Forall (token_ok A) ws ->
  Forall (fun c => A c /\ re_punct c = false) (unwords ws).
Proof.
  intros Hws. apply Forall_unwords.
  - split; [exact A_SPACE | apply re_punct_SPACE, isspace_SPACE].
  - revert Hws. apply Forall_impl. intros w [_ Hw]. revert Hw. apply Forall_impl.
    now intros c [Ha [_ Hp]].
Qed.

Lemma lowered_tokens_fixed (ws : list str) :
  Forall (token_ok A) ws -> map (map lc) (map (map lc) ws) = map (map lc) ws.
Proof.
  induction 1 as [|w ws [_ Hw] _ IH]; [reflexivity|].
  cbn [map]. rewrite IH. f_equal.
  clear IH. induction Hw as [|c w Hc _ IHw]; [reflexivity|].
  cbn [map]. now rewrite IHw, lc_idem.
Qed.

(** The normal form of text over [A]: its tokens, lower-cased and one
    space apart; it is text over [A] again. *)
Lemma normal_form_tokens (z : str) :
  normal_form lc z = unwords (map (map lc) (words (normalize_punct z))).
Proof.
  unfold normal_form. rewrite (normalize_whitespace_unwords isspace_SPACE).
  now apply map_unwords.
Qed.

Lemma normal_form_alphabet (z : str) : Forall A z -> Forall A (normal_form lc z).
Proof.
  intros Hz. rewrite normal_form_tokens.
  pose proof (unwords_tokens_chars _ (lowered_tokens_ok _ (tokens_of_normalize_punct z Hz)))
    as Hch.
  revert Hch. apply Forall_impl. now intros c [Ha _].
Qed.

Lemma normalize_name_normal_form_of_nfc (x : str) :
  x <> [] -> Forall A (nfc x) -> normalize_name (Some x) = normal_form lc (nfc x).
Proof.
  intros Hne Hz. unfold normalize_name. destruct x as [|c0 x0]; [congruence|].
  cbn zeta. unfold to_nfc, normal_form.
  rewrite (normalize_whitespace_unwords isspace_SPACE).
  apply lower_lc.
  pose proof (unwords_tokens_chars _ (tokens_of_normalize_punct _ Hz)) as Hch.
  revert Hch. apply Forall_impl. now intros c [Ha _].
Qed.

(** Lower-cased tokens one space apart, in NFC, are their own normal form. *)
Lemma normalize_name_of_tokens (ws : list str) :
  Forall (token_ok A) ws ->
  nfc (unwords (map (map lc) ws)) = unwords (map (map lc) ws) ->
  normalize_name (Some (unwords (map (map lc) ws))) = unwords (map (map lc) ws).
Proof.
  intros Hws Hnfc. pose proof (lowered_tokens_fixed ws Hws) as Hfix.
  apply lowered_tokens_ok in Hws.
  set (ws' := map (map lc) ws) in *.
  pose proof (unwords_tokens_chars ws' Hws) as Hch.
  assert (HA : Forall A (unwords ws')).
  { revert Hch. apply Forall_impl. now intros c [Ha _]. }
  assert (Hkept : Forall (fun c => re_punct c = false) (unwords ws')).
  { revert Hch. apply Forall_impl. now intros c [_ Hp]. }
  destruct (unwords ws') as [|c y] eqn:Ey; [reflexivity|].
  rewrite <- Ey in *.
  rewrite normalize_name_normal_form_of_nfc by (rewrite ?Hnfc, ?Ey; congruence || assumption).
  rewrite Hnfc, normal_form_tokens.
  rewrite normalize_punct_kept by assumption.
  rewrite (words_unwords isspace_SPACE) by now apply token_ok_nonspace.
  now rewrite Hfix.
Qed.

End LowerClosedAlphabet.

(** C8 (amended). Normalising a normalised name changes nothing, for every
    name over an alphabet that lower-casing does not lead out of: the
    tables lower-case its text code point by code point, token characters
    to token characters, and the normal form of its text is in NFC. *)
Theorem normalize_name_idempotent_on_lower_closed
    (U : Unicode) (A : Z -> Prop) (lc : Z -> Z) (raw : ostr) :
  LowerClosed U A lc -> Forall A (or_empty raw) ->
  normalize_name (Some (normalize_name raw)) = normalize_name raw.
Proof.
  intros [HA Hsp Hlsp Htok Hidem Hlower Hnfc Hnormal] Hx.
  destruct raw as [x|]; [|reflexivity].
  destruct (str_eq_dec x []) as [->|Hne]; [reflexivity|].
  cbn [or_empty] in Hx. pose proof (Hnfc x Hx) as Hz.
  specialize (Hnormal x Hx).
  rewrite (normalize_name_normal_form_of_nfc A lc HA Hsp Hlower x Hne Hz).
  rewrite (normal_form_tokens lc Hsp Hlsp) in *.
  apply (normalize_name_of_tokens A lc HA Hsp Hlsp Htok Hidem Hlower); [|exact Hnormal].
  now apply tokens_of_normalize_punct.
Qed.

(** Where NFC is the identity on text over the alphabet, the two
    conditions on NFC hold. *)
Lemma lower_closed_of_nfc_identity (U : Unicode) (A : Z -> Prop) (lc : Z -> Z) :
  A SPACE -> isspace SPACE = true -> lc SPACE = SPACE ->
  (forall c, token_char A c -> token_char A (lc c)) ->
  (forall c, token_char A c -> lc (lc c) = lc c) ->
  (forall s, Forall A s -> str_lower s = map lc s) ->
  (forall s, Forall A s -> nfc s = s) ->
  LowerClosed U A lc.
Proof.
  intros HA Hsp Hlsp Htok Hidem Hlower Hid.
  constructor; try assumption.
  - intros s Hs. now rewrite Hid.
  - intros s Hs. rewrite (Hid s Hs). apply Hid.
    now apply (normal_form_alphabet A lc HA Hsp Hlsp Htok).
Qed.

Section LatinAndDevanagari.
Context {U : Unicode}.
Hypothesis AF : AsciiFaithful U.

Lemma ascii_lower_devanagari (c : Z) : in_devanagari_block c = true -> ascii_lower c = c.
Proof.
  unfold in_devanagari_block, DEVANAGARI_BLOCK, ascii_lower. cbn [fst snd].
  intros Hc. apply andb_true_iff in Hc. destruct Hc as [Hc _].
  apply Z.leb_le in Hc.
  destruct (65 <=? c) eqn:E1, (c <=? 90) eqn:E2; cbn [andb]; try reflexivity.
  apply Z.leb_le in E2. lia.
Qed.

Lemma ascii_lower_token_char (A : Z -> Prop) (c : Z) :
  (forall c, A c -> is_ascii c \/ ascii_lower c = c) ->
  (forall c, A c -> A (ascii_lower c)) ->
  token_char A c -> token_char A (ascii_lower c).
Proof.
  intros Hcase Hclosed [Hc [Hs Hp]].
  destruct (Hcase c Hc) as [Ha| ->]; [|now repeat split].
  destruct (ascii_lower_word_char AF c) as [_ [Hs' Hp']]; [unfold word_char; auto|].
  unfold token_char. auto.
Qed.

(** ASCII text is text over an alphabet that lower-casing does not lead
    out of, for any tables that agree with Python's on ASCII. *)
Lemma ascii_lower_closed : LowerClosed U is_ascii ascii_lower.
Proof.
  apply lower_closed_of_nfc_identity.
  - unfold is_ascii, SPACE; lia.
  - apply (af_isspace_SPACE AF).
  - apply ascii_lower_SPACE.
  - intros c. apply ascii_lower_token_char; [now left | apply ascii_lower_is_ascii].
  - intros c _. apply ascii_lower_idem.
  - apply (af_lower U AF).
  - apply (af_nfc U AF).
Qed.

Lemma ascii_lower_latin_or_devanagari (c : Z) :
  latin_or_devanagari c -> latin_or_devanagari (ascii_lower c).
Proof.
  intros [Ha|Hd]; [left; now apply ascii_lower_is_ascii|].
  right. now rewrite ascii_lower_devanagari.
Qed.

(** So is text in ASCII and the Devanagari block, for any tables that agree
    with Python's on it. *)
Lemma latin_devanagari_lower_closed :
  DevanagariFaithful U -> LowerClosed U latin_or_devanagari ascii_lower.
Proof.
  intros [Hlower Hnfc Hnormal]. constructor; try assumption.
  - left. unfold is_ascii, SPACE; lia.
  - apply (af_isspace_SPACE AF).
  - apply ascii_lower_SPACE.
  - intros c. apply ascii_lower_token_char.
    + intros d [Ha|Hd]; [now left | right; now apply ascii_lower_devanagari].
    + apply ascii_lower_latin_or_devanagari.
  - intros c _. apply ascii_lower_idem.
Qed.

End LatinAndDevanagari.

Lemma ucd_excerpt_lower (s : str) :
  Forall latin_or_devanagari s -> @str_lower ucd_excerpt s = map ascii_lower s.
Proof.
  induction 1 as [|c s Hc _ IH]; [reflexivity|].
  cbn [str_lower ucd_excerpt flat_map map] in *. rewrite IH.
  assert (E : (c =? CAPITAL_I_DOT) = false).
  { apply Z.eqb_neq. unfold CAPITAL_I_DOT.
    destruct Hc as [Ha|Hd]; [unfold is_ascii in Ha; lia|].
    unfold in_devanagari_block, DEVANAGARI_BLOCK in Hd. cbn [fst snd] in Hd.
    apply andb_true_iff in Hd. destruct Hd as [Hd _]. apply Z.leb_le in Hd. lia. }
  now rewrite E.
Qed.

Lemma ucd_excerpt_devanagari_faithful : DevanagariFaithful ucd_excerpt.
Proof.
  constructor; [apply ucd_excerpt_lower | intros s Hs; exact Hs | reflexivity].
Qed.

Lemma latin_or_devanagari_forallb (s : str) :
  forallb (fun c => ((0 <=? c) && (c <? 128)) || in_devanagari_block c) s = true ->
  Forall latin_or_devanagari s.
Proof.
  rewrite forallb_forall, Forall_forall. intros Hs c Hc. specialize (Hs c Hc).
  apply orb_true_iff in Hs. destruct Hs as [Hs|Hs]; [left | now right].
  apply andb_true_iff in Hs. destruct Hs as [H0 H1].
  apply Z.leb_le in H0. apply Z.ltb_lt in H1. unfold is_ascii. lia.
Qed.

Lemma normalize_name_idempotent_on_lower_closed_witness :
  LowerClosed ucd_excerpt latin_or_devanagari ascii_lower
  /\ Forall latin_or_devanagari (or_empty (Some name_two_scripts))
  /\ @normalize_name ucd_excerpt
       (Some (@normalize_name ucd_excerpt (Some name_two_scripts)))
     = @normalize_name ucd_excerpt (Some name_two_scripts).
Proof.
  assert (LC : LowerClosed ucd_excerpt latin_or_devanagari ascii_lower)
    by exact (latin_devanagari_lower_closed ucd_excerpt_ascii_faithful
                ucd_excerpt_devanagari_faithful).
  assert (Hx : Forall latin_or_devanagari (or_empty (Some name_two_scripts))).
  { apply latin_or_devanagari_forallb. reflexivity. }
  split; [exact LC|]. split; [exact Hx|].
  exact (normalize_name_idempotent_on_lower_closed ucd_excerpt latin_or_devanagari
           ascii_lower (Some name_two_scripts) LC Hx).
Defined.

(** Whatever tables agree with the Unicode Character Database on U+0130 and
    U+0307: the capital dotted I normalises to [i] followed by the combining
    dot, and that string normalises to a bare [i]. *)
Lemma normalize_name_dotted_I (U : Unicode) :
  DottedIFaithful U ->
  normalize_name (Some [CAPITAL_I_DOT]) = [105; COMBINING_DOT]
  /\ normalize_name (Some [105; COMBINING_DOT]) = [105].
Proof.
  intros [HaI HsI Hai Hsi Had Hsd Hsp HnI Hnid HlI Hli].
  split; unfold normalize_name, to_nfc; cbn zeta;
    rewrite (normalize_whitespace_unwords Hsp).
  - rewrite HnI. unfold normalize_punct, re_punct, re_word. cbn [map].
    rewrite HaI. cbn [orb negb]. cbn [words]. rewrite HsI. exact HlI.
  - rewrite Hnid. unfold normalize_punct, re_punct, re_word. cbn [map].
    rewrite Hai, Had, Hsd. cbn [orb negb].
    change ((COMBINING_DOT =? UNDERSCORE) || false
            || (2304 <=? COMBINING_DOT) && (COMBINING_DOT <=? 2431)) with false.
    cbn [negb]. cbn [words]. rewrite Hsi, Hsp. exact Hli.
Qed.

(** C8 as stated fails on U+0130: its normal form ends in the combining
    dot, which the next pass replaces by a space and trims. *)
Lemma normalize_name_not_idempotent_on_dotted_I :
  @normalize_name ucd_excerpt (Some [CAPITAL_I_DOT]) = [105; COMBINING_DOT]
  /\ @normalize_name ucd_excerpt
       (Some (@normalize_name ucd_excerpt (Some [CAPITAL_I_DOT]))) = [105]
  /\ @normalize_name ucd_excerpt
       (Some (@normalize_name ucd_excerpt (Some [CAPITAL_I_DOT])))
     <> @normalize_name ucd_excerpt (Some [CAPITAL_I_DOT]).
Proof.
  destruct (normalize_name_dotted_I ucd_excerpt ucd_excerpt_dotted_i_faithful)
    as [E1 E2].
  assert (E3 : @normalize_name ucd_excerpt
                 (Some (@normalize_name ucd_excerpt (Some [CAPITAL_I_DOT]))) = [105])
    by (rewrite E1; exact E2).
  split; [exact E1|]. split; [exact E3|]. rewrite E3, E1. discriminate.
Qed.

(* ================================================================== *)
(** * Part III. Further properties of the code *)
(* ================================================================== *)

(** ** Scores and verdicts *)

Lemma fold_left_max_ge (xs : list Z) (x : Z) : x <= fold_left Z.max xs x.
Proof.
  revert x. induction xs as [|y xs IH]; intros x; simpl; [lia|].
  specialize (IH (Z.max x y)). lia.
Qed.

Lemma fold_left_max_bound (xs : list Z) (x y : Z) :
  In y xs -> y <= fold_left Z.max xs x.
Proof.
  revert x. induction xs as [|z xs IH]; intros x; simpl; [tauto|].
  intros [->|Hin]; [|now apply IH].
  pose proof (fold_left_max_ge xs (Z.max x y)). lia.
Qed.

Lemma fold_left_max_attained (xs : list Z) (x : Z) :
  fold_left Z.max xs x = x \/ In (fold_left Z.max xs x) xs.
Proof.
  revert x. induction xs as [|z xs IH]; intros x; simpl; [now left|].
  destruct (IH (Z.max x z)) as [E|Hin]; [|now right; right].
  rewrite E. destruct (Z.max_spec x z) as [[_ ->]|[_ ->]]; [right; now left | now left].
Qed.

Lemma py_max_bound (xs : list Z) (d y : Z) : In y xs -> y <= py_max xs d.
Proof.
  destruct xs as [|x xs]; simpl; [tauto|].
  intros [->|Hin]; [apply fold_left_max_ge | now apply fold_left_max_bound].
Qed.

Lemma py_max_attained (xs : list Z) (d : Z) : xs <> [] -> In (py_max xs d) xs.
Proof.
  destruct xs as [|x xs]; [congruence|]. intros _. simpl.
  destruct (fold_left_max_attained xs x) as [->|Hin]; auto.
Qed.

Section Scores.
Context `{Fuzz}.

(** X1. The best name score is the largest of the candidate's scores against
    the seeded names: it bounds each of them and, when there is a seeded
    name, it is the score against one of them; with no seeded name it is 0. *)
Theorem best_name_score_is_maximum (name : str) (base_names : list str) :
  (forall b, In b base_names -> fuzzy_name_score name b <= best_name_score name base_names)
  /\ (base_names <> [] ->
      exists b, In b base_names /\ best_name_score name base_names = fuzzy_name_score name b)
  /\ best_name_score name [] = 0.
Proof.
  unfold best_name_score. split; [|split; [|reflexivity]].
  - intros b Hb. apply py_max_bound, in_map_iff. eauto.
  - intros Hne.
    assert (Hne' : map (fun b => fuzzy_name_score name b) base_names <> [])
      by (destruct base_names; [congruence | discriminate]).
    apply (py_max_attained _ 0) in Hne'. apply in_map_iff in Hne' as [b [E Hb]].
    eauto.
Qed.

Lemma best_name_score_incl (name : str) (base1 base2 : list str) :
  base1 <> [] -> incl base1 base2 ->
  best_name_score name base1 <= best_name_score name base2.
Proof.
  intros Hne Hincl. unfold best_name_score.
  assert (Hne' : map (fun b => fuzzy_name_score name b) base1 <> [])
    by (destruct base1; [congruence | discriminate]).
  apply (py_max_attained _ 0) in Hne'. apply in_map_iff in Hne' as [b [E Hb]].
  fold (best_name_score name base1) in E. unfold best_name_score in E. rewrite <- E.
  apply py_max_bound, in_map_iff. exists b. split; [reflexivity | now apply Hincl].
Qed.

Variable TH : THRESHOLDS.

(** The verdict as a function of the best score. *)
Lemma verify_candidate_by_score (base_names : list str) (name : str)
    (phon address mobile pan : ostr) :
  name <> [] ->
  verify_candidate TH base_names (Some name, phon, address, mobile, pan) =
    (name_strict TH <=? best_name_score name base_names)
    || (name_medium TH <=? best_name_score name base_names)
    || ((name_loose TH <=? best_name_score name base_names)
        && ((address_loose TH <=? fuzzy_address_score (or_empty address) (or_empty address))
            || (negb (mobile_exact_required TH) || truthy mobile))).
Proof.
  intros Hname. rewrite verify_candidate_tiers by assumption. cbn zeta.
  destruct (name_strict TH <=? _); [reflexivity|].
  destruct (name_medium TH <=? _); [reflexivity|].
  now destruct (name_loose TH <=? _).
Qed.

Lemma verify_candidate_nameless (base_names : list str) (row : Row) :
  truthy (r0 row) = false -> verify_candidate TH base_names row = false.
Proof.
  destruct row as [[[[n p] a] m] q]. cbn [r0]. intros Hn.
  unfold verify_candidate. now rewrite Hn.
Qed.

(** X2. When mobile matching is not required, a candidate is accepted exactly
    when its name is non-empty and its best name score reaches at least one
    of the three name thresholds; the address and the mobile play no part. *)
Theorem verify_candidate_without_mobile_requirement
    (base_names : list str) (row : Row) :
  mobile_exact_required TH = false ->
  verify_candidate TH base_names row = true <->
  or_empty (r0 row) <> []
  /\ (name_strict TH <= best_name_score (or_empty (r0 row)) base_names
      \/ name_medium TH <= best_name_score (or_empty (r0 row)) base_names
      \/ name_loose TH <= best_name_score (or_empty (r0 row)) base_names).
Proof.
  intros Hmob. destruct (truthy (r0 row)) eqn:Hn.
  - destruct row as [[[[n p] a] m] q]. cbn [r0] in *.
    destruct n as [name|]; [|discriminate]. cbn [truthy or_empty] in *.
    apply nonempty_true in Hn. rewrite verify_candidate_by_score by assumption.
    rewrite Hmob. cbn [negb orb]. rewrite orb_true_r, andb_true_r.
    rewrite !orb_true_iff, !Z.leb_le. tauto.
  - rewrite verify_candidate_nameless by assumption.
    rewrite truthy_or_empty in Hn. destruct (or_empty (r0 row)); [|discriminate].
    split; [discriminate | intros [Hne _]; congruence].
Qed.

(** X3. Seeding more names never loses a candidate: a row accepted against
    a non-empty list of seeded names is accepted against every list that
    contains those names. *)
Theorem verify_candidate_monotone_in_base_names
    (base1 base2 : list str) (row : Row) :
  base1 <> [] -> incl base1 base2 ->
  verify_candidate TH base1 row = true -> verify_candidate TH base2 row = true.
Proof.
  intros Hne Hincl. destruct (truthy (r0 row)) eqn:Hn.
  - destruct row as [[[[n p] a] m] q]. cbn [r0] in *.
    destruct n as [name|]; [|discriminate]. cbn [truthy] in Hn.
    apply nonempty_true in Hn. rewrite !verify_candidate_by_score by assumption.
    pose proof (best_name_score_incl name base1 base2 Hne Hincl) as Hle.
    rewrite !orb_true_iff, !andb_true_iff, !Z.leb_le.
    intros [[?|?]|[? ?]]; [left; left; lia | left; right; lia | right; split; [lia|assumption]].
  - now rewrite verify_candidate_nameless by assumption.
Qed.

End Scores.

Lemma verify_candidate_without_mobile_requirement_witness :
  let TH := {| name_strict := 90; name_medium := 80; name_loose := 60;
               address_loose := 70; mobile_exact_required := false |} in
  let row := (Some (py "john dxx"), None, None, None, None) in
  @verify_candidate fuzz_positional TH [py "john doe"] row = true <->
  or_empty (r0 row) <> []
  /\ (name_strict TH <= @best_name_score fuzz_positional (or_empty (r0 row)) [py "john doe"]
      \/ name_medium TH <= @best_name_score fuzz_positional (or_empty (r0 row)) [py "john doe"]
      \/ name_loose TH <= @best_name_score fuzz_positional (or_empty (r0 row)) [py "john doe"]).
Proof.
  cbv zeta.
  apply (@verify_candidate_without_mobile_requirement fuzz_positional). reflexivity.
Defined.

Lemma verify_candidate_monotone_in_base_names_witness :
  @verify_candidate fuzz_positional TH_example [py "john doe"; py "jon doe"]
    (Some (py "john doe"), None, None, None, None) = true.
Proof.
  apply (@verify_candidate_monotone_in_base_names fuzz_positional TH_example
           [py "john doe"] [py "john doe"; py "jon doe"]).
  - discriminate.
  - intros b [<-|[]]. now left.
  - reflexivity.
Defined.

(** ** Statements against the table *)

Lemma col_in_has_column (db : Database) (name : string) :
  has_column db name = col_in name (db_columns db).
Proof.
  unfold has_column, col_in. induction (db_columns db) as [|c cols IH]; simpl.
  - reflexivity.
  - destruct (String.eqb name c); [reflexivity|].
    rewrite <- IH. now destruct (index_of name cols).
Qed.

Lemma check_parts_cons_col_or_empty (db : Database) (name : string) (parts : list sql_expr) :
  check_parts db (col_or_empty name (db_columns db) :: parts) = check_parts db parts.
Proof.
  unfold col_or_empty. destruct (col_in name (db_columns db)) eqn:E; simpl.
  - now rewrite col_in_has_column, E.
  - reflexivity.
Qed.

Lemma check_parts_cons_col (db : Database) (name : string) (parts : list sql_expr) :
  has_column db name = true -> check_parts db (Col name :: parts) = check_parts db parts.
Proof. intros E. simpl. now rewrite E. Qed.

Lemma where_holds_single (db : Database) (p : sql_pred) (r : list ostr) :
  where_holds db (WhereOr [p]) r = pred_holds db p r.
Proof. simpl. apply orb_false_r. Qed.

Lemma pred_holds_ColIn (db : Database) (name : string) (params : list str) (r : list ostr) :
  pred_holds db (ColIn name params) r = true <->
  exists v, cell db name r = Some v /\ In v params.
Proof.
  unfold pred_holds. cbn [pred_column]. destruct (cell db name r) as [v|].
  - rewrite existsb_exists. split.
    + intros [x [Hx E]]. apply str_eqb_eq in E. subst x. eauto.
    + intros [w [E Hw]]. injection E as <-. exists v. split; [assumption | apply str_eqb_refl].
  - split; [discriminate | intros [v [E _]]; discriminate].
Qed.

Lemma pred_holds_ColEq (db : Database) (name : string) (param : str) (r : list ostr) :
  pred_holds db (ColEq name param) r = true <-> cell db name r = Some param.
Proof.
  unfold pred_holds. cbn [pred_column]. destruct (cell db name r) as [v|].
  - rewrite str_eqb_eq. split; congruence.
  - split; discriminate.
Qed.

Lemma in_apply_limit {A} (limit : option nat) (rows : list A) (r : A) :
  In r (apply_limit limit rows) -> In r rows.
Proof.
  destruct limit as [n|]; simpl; [|auto].
  intros Hin. rewrite <- (firstn_skipn n rows). apply in_app_iff. now left.
Qed.

Lemma length_apply_limit_le {A} (limit : option nat) (rows : list A) :
  (List.length (apply_limit limit rows) <= List.length rows)%nat.
Proof.
  destruct limit as [n|]; simpl; [|lia]. rewrite length_firstn. lia.
Qed.

(** Where every name of the WHERE clause is a column of the table, no alias
    of the select list is consulted. *)
Lemma bound_cell_column (db : Database) (parts : list sql_expr) (name : string)
    (r : list ostr) :
  has_column db name = true -> bound_cell db parts name r = cell db name r.
Proof. intros Hc. unfold bound_cell. now rewrite Hc. Qed.

Lemma select_pred_holds_column (db : Database) (parts : list sql_expr) (p : sql_pred)
    (r : list ostr) :
  has_column db (pred_column p) = true ->
  select_pred_holds db parts p r = pred_holds db p r.
Proof.
  intros Hc. unfold select_pred_holds, pred_holds. now rewrite bound_cell_column.
Qed.

Lemma check_preds_columns (db : Database) (conds : list sql_pred) :
  check_preds db conds = Ok tt ->
  Forall (fun p => has_column db (pred_column p) = true) conds.
Proof.
  induction conds as [|p conds IH]; cbn [check_preds]; intros Hc; [constructor|].
  destruct (has_column db (pred_column p)) eqn:Hp; cbn [negb] in Hc; [|discriminate].
  constructor; [exact Hp|]. apply IH.
  destruct p as [c [|v vs]|c v]; [discriminate|exact Hc|exact Hc].
Qed.

Lemma select_check_preds_columns (db : Database) (parts : list sql_expr)
    (conds : list sql_pred) :
  check_preds db conds = Ok tt -> select_check_preds db parts conds = Ok tt.
Proof.
  induction conds as [|p conds IH]; cbn [check_preds select_check_preds]; intros Hc;
    [reflexivity|].
  unfold bound_in.
  destruct (has_column db (pred_column p)) eqn:Hp; cbn [negb orb] in *; [|discriminate].
  destruct p as [c [|v vs]|c v]; [discriminate|now apply IH|now apply IH].
Qed.

Lemma select_check_where_columns (db : Database) (parts : list sql_expr)
    (whr : sql_where) :
  check_where db whr = Ok tt -> select_check_where db parts whr = Ok tt.
Proof.
  destruct whr as [|conds]; cbn [check_where select_check_where]; [reflexivity|].
  apply select_check_preds_columns.
Qed.

Lemma select_where_holds_columns (db : Database) (parts : list sql_expr)
    (whr : sql_where) :
  check_where db whr = Ok tt ->
  forall r, select_where_holds db parts whr r = where_holds db whr r.
Proof.
  destruct whr as [|conds]; cbn [check_where select_where_holds where_holds];
    [reflexivity|].
  intros Hc r. apply check_preds_columns in Hc.
  induction Hc as [|p conds Hp _ IH]; cbn [existsb]; [reflexivity|].
  now rewrite IH, select_pred_holds_column.
Qed.

(** A five-column select whose columns all bind. *)
Lemma execute_select5_ok (db : Database) (tr : list statement)
    (p0 p1 p2 p3 p4 : sql_expr) (whr : sql_where) (limit : option nat) :
  check_parts db [p0; p1; p2; p3; p4] = Ok tt -> check_where db whr = Ok tt ->
  execute_select5 (p0, p1, p2, p3, p4) whr limit db tr =
    (Ok (map (fun r => (project db p0 r, project db p1 r, project db p2 r,
                        project db p3 r, project db p4 r))
             (apply_limit limit (filter (where_holds db whr) (db_rows db)))),
     tr ++ [Select [p0; p1; p2; p3; p4] whr limit]).
Proof.
  intros Hp Hw. unfold execute_select5.
  rewrite Hp, (select_check_where_columns db _ whr Hw).
  now rewrite (filter_ext _ _ (select_where_holds_columns db _ whr Hw)).
Qed.

Lemma set_to_list_In (xs : list str) (x : str) : In x (set_to_list xs) <-> In x xs.
Proof. apply nodup_In. Qed.

Lemma set_to_list_nil (xs : list str) : set_to_list xs = [] -> xs = [].
Proof.
  intros E. destruct xs as [|x xs]; [reflexivity|].
  assert (Hx : In x (set_to_list (x :: xs))) by (apply set_to_list_In; now left).
  rewrite E in Hx. destruct Hx.
Qed.

Lemma filter_nonempty_In (xs : list str) (x : str) :
  In x (filter nonempty xs) <-> In x xs /\ x <> [].
Proof. rewrite filter_In, nonempty_true. reflexivity. Qed.

Section Blocking.
Context `{Unicode} `{Phonetics}.
Variable SP : SEARCH.

(** The rows of [fetch_rows_for_pan] on a table with both key columns. *)
Lemma fetch_rows_for_pan_ok (pan : ostr) (db : Database) (tr : list statement) :
  has_column db "name_norm" = true -> has_column db "pan_upper" = true ->
  let cols := db_columns db in
  let whr := WhereOr [ColEq "pan_upper" (canonicalize_pan pan)] in
  fetch_rows_for_pan pan db tr =
    (Ok (map (fun r => (cell db "name_norm" r,
                        project db (col_or_empty "name_phonetic" cols) r,
                        project db (col_or_empty "address" cols) r,
                        project db (col_or_empty "mobile" cols) r,
                        cell db "pan_upper" r))
             (filter (where_holds db whr) (db_rows db))),
     tr ++ [PragmaTableInfo "transactions";
            Select [Col "name_norm"; col_or_empty "name_phonetic" cols;
                    col_or_empty "address" cols; col_or_empty "mobile" cols;
                    col_or_empty "pan_upper" cols] whr None]).
Proof.
  intros Hname Hpan. cbn zeta.
  unfold fetch_rows_for_pan, bind, _get_table_columns, execute_table_info.
  rewrite execute_select5_ok.
  - rewrite <- app_assoc. cbn [app apply_limit]. do 2 f_equal. apply map_ext. intros r.
    unfold col_or_empty at 4. rewrite <- col_in_has_column, Hpan. reflexivity.
  - rewrite check_parts_cons_col by assumption.
    now rewrite !check_parts_cons_col_or_empty.
  - cbn [check_where check_preds pred_column]. now rewrite Hpan.
Qed.

(** X4. On a table with the columns [name_norm] and [pan_upper],
    [fetch_rows_for_pan] returns one row per ledger row whose [pan_upper]
    equals the canonical form of the given PAN, and each returned row
    carries exactly that canonical PAN. *)
Theorem fetch_rows_for_pan_matches (pan : ostr) (db : Database) (tr : list statement) :
  has_column db "name_norm" = true -> has_column db "pan_upper" = true ->
  exists rows,
    fst (fetch_rows_for_pan pan db tr) = Ok rows
    /\ (forall r, In r rows -> r4 r = Some (canonicalize_pan pan))
    /\ List.length rows =
       List.length (filter (pred_holds db (ColEq "pan_upper" (canonicalize_pan pan)))
                           (db_rows db)).
Proof.
  intros Hname Hpan. rewrite fetch_rows_for_pan_ok by assumption. cbn [fst].
  eexists. split; [reflexivity|]. split.
  - intros r Hr. apply in_map_iff in Hr as [t [<- Ht]]. cbn [r4].
    apply filter_In in Ht as [_ Ht]. rewrite where_holds_single in Ht.
    now apply pred_holds_ColEq.
  - rewrite length_map. f_equal. apply filter_ext. intros r. apply where_holds_single.
Qed.

End Blocking.

Section BlockingRows.
Context `{Unicode} `{Phonetics}.
Variable SP : SEARCH.

(** What candidate blocking returns on a table that has [name_norm]. *)
Lemma candidate_block_rows (names : list str) (db : Database) (tr : list statement) :
  has_column db "name_norm" = true ->
  exists rows,
    fst (candidate_block_by_names SP names db tr) = Ok rows
    /\ (List.length rows <= candidate_limit SP)%nat
    /\ forall r, In r rows ->
       exists t n,
         In t (db_rows db) /\ In n names /\ n <> []
         /\ r0 r = cell db "name_norm" t
         /\ r4 r = project db (col_or_empty "pan_upper" (db_columns db)) t
         /\ if col_in "name_phonetic" (db_columns db)
            then r1 r = Some (phonetic_key n)
            else r1 r = Some [] /\ r0 r = Some (normalize_name (Some n)).
Proof.
  intros Hname.
  unfold candidate_block_by_names, bind, _get_table_columns, execute_table_info.
  destruct (col_in "name_phonetic" (db_columns db)) eqn:Hphon.
  - set (keys := set_to_list (map phonetic_key (filter nonempty names))).
    destruct keys as [|k keys'] eqn:Ek.
    + cbn [negb ret fst]. exists []. repeat split; simpl; [lia | tauto].
    + cbn [negb]. rewrite <- Ek. rewrite execute_select5_ok.
      * cbn [fst]. eexists. split; [reflexivity|]. split.
        { rewrite length_map. apply length_apply_limit. }
        intros r Hr. apply in_map_iff in Hr as [t [<- Ht]].
        apply in_apply_limit, filter_In in Ht as [Ht Hw].
        rewrite where_holds_single in Hw. apply pred_holds_ColIn in Hw as [v [Hv Hin]].
        unfold keys in Hin. apply set_to_list_In, in_map_iff in Hin as [n [<- Hn]].
        apply filter_nonempty_In in Hn as [Hn Hne].
        exists t, n. cbn [r0 r1 r4 project]. repeat split; auto.
      * rewrite !check_parts_cons_col, !check_parts_cons_col_or_empty;
          [reflexivity | now rewrite col_in_has_column | assumption].
      * cbn [check_where check_preds pred_column].
        rewrite col_in_has_column, Hphon. cbn [negb]. rewrite Ek. reflexivity.
  - set (norms := set_to_list (map (fun n => normalize_name (Some n))
                                   (filter nonempty names))).
    destruct norms as [|k norms'] eqn:Ek.
    + cbn [negb ret fst]. exists []. repeat split; simpl; [lia | tauto].
    + cbn [negb]. rewrite <- Ek. rewrite execute_select5_ok.
      * cbn [fst]. eexists. split; [reflexivity|]. split.
        { rewrite length_map. apply length_apply_limit. }
        intros r Hr. apply in_map_iff in Hr as [t [<- Ht]].
        apply in_apply_limit, filter_In in Ht as [Ht Hw].
        rewrite where_holds_single in Hw. apply pred_holds_ColIn in Hw as [v [Hv Hin]].
        unfold norms in Hin. apply set_to_list_In, in_map_iff in Hin as [n [<- Hn]].
        apply filter_nonempty_In in Hn as [Hn Hne].
        exists t, n. cbn [r0 r1 r4 project]. repeat split; auto.
      * rewrite check_parts_cons_col by assumption.
        change (check_parts db (EmptyAs "name_phonetic" :: ?l)) with (check_parts db l).
        now rewrite !check_parts_cons_col_or_empty.
      * cbn [check_where check_preds pred_column].
        rewrite Hname. cbn [negb]. rewrite Ek. reflexivity.
Qed.

(** X5. On a table that has the column [name_norm], candidate blocking
    returns, and never more than [candidate_limit] rows, whether it blocks on
    phonetic keys or falls back to normalised names. *)
Theorem candidate_block_within_limit
    (names : list str) (db : Database) (tr : list statement) :
  has_column db "name_norm" = true ->
  exists rows,
    fst (candidate_block_by_names SP names db tr) = Ok rows
    /\ (List.length rows <= candidate_limit SP)%nat.
Proof.
  intros Hname. destruct (candidate_block_rows names db tr Hname) as [rows [E [Hlen _]]].
  eauto.
Qed.

(** X6. Every candidate comes from a non-empty seeded name: with a phonetic
    column, the candidate's phonetic key is the phonetic key of a seeded
    name; without one, the candidate's normalised name is the normalised
    form of a seeded name and its phonetic key is reported as empty. *)
Theorem candidate_block_shares_key
    (names : list str) (db : Database) (tr : list statement) :
  has_column db "name_norm" = true ->
  exists rows,
    fst (candidate_block_by_names SP names db tr) = Ok rows
    /\ forall r, In r rows ->
       exists n, In n names /\ n <> []
         /\ if col_in "name_phonetic" (db_columns db)
            then r1 r = Some (phonetic_key n)
            else r1 r = Some [] /\ r0 r = Some (normalize_name (Some n)).
Proof.
  intros Hname. destruct (candidate_block_rows names db tr Hname) as [rows [E [_ Hrows]]].
  exists rows. split; [assumption|]. intros r Hr.
  destruct (Hrows r Hr) as [t [n [_ [Hn [Hne [_ [_ Hkey]]]]]]]. eauto.
Qed.

End BlockingRows.

Section Expansion.
Context `{Unicode}.
Variable SP : SEARCH.

Lemma expand_rows (pans names : list str) (db : Database) (tr : list statement) :
  (filter nonempty pans = [] \/ has_column db "pan_upper" = true) ->
  (filter nonempty names = [] \/ has_column db "name_norm" = true) ->
  exists whr,
    expand_all_transactions_for_entities SP pans names db tr
    = (Ok (apply_limit (limit_clause SP) (filter (where_holds db whr) (db_rows db))),
       tr ++ [SelectStar whr (limit_clause SP)])
    /\ forall r, where_holds db whr r = true <-> expansion_match db pans names r.
Proof.
  intros Hpan Hname. unfold expand_all_transactions_for_entities, expansion_match.
  set (ps := map (fun p => canonicalize_pan (Some p)) (filter nonempty pans)).
  set (ns := set_to_list (filter nonempty names)).
  assert (Hps : forall v, In v ps <->
                  exists p, In p pans /\ p <> [] /\ v = canonicalize_pan (Some p)).
  { intros v. unfold ps. rewrite in_map_iff. split.
    - intros [p [<- Hp]]. apply filter_nonempty_In in Hp as [Hp Hne]. eauto.
    - intros [p [Hp [Hne ->]]]. exists p. split; [reflexivity|].
      now apply filter_nonempty_In. }
  assert (Hns : forall v, In v ns <-> In v names /\ v <> []).
  { intros v. unfold ns. now rewrite set_to_list_In, filter_nonempty_In. }
  assert (Hpcol : ps <> [] -> has_column db "pan_upper" = true).
  { intros Hne. destruct Hpan as [E|E]; [|assumption].
    exfalso. apply Hne. unfold ps. now rewrite E. }
  assert (Hncol : ns <> [] -> has_column db "name_norm" = true).
  { intros Hne. destruct Hname as [E|E]; [|assumption].
    exfalso. apply Hne. unfold ns. now rewrite E. }
  assert (Hpin : forall r, pred_holds db (ColIn "pan_upper" ps) r = true <->
            exists p, In p pans /\ p <> []
                      /\ cell db "pan_upper" r = Some (canonicalize_pan (Some p))).
  { intros r. rewrite pred_holds_ColIn. split.
    - intros [v [Hv Hin]]. apply Hps in Hin as [p [Hp [Hne ->]]]. eauto.
    - intros [p [Hp [Hne Hc]]]. eexists. split; [exact Hc|]. apply Hps. eauto. }
  assert (Hnin : forall r, pred_holds db (ColIn "name_norm" ns) r = true <->
            exists n, In n names /\ n <> [] /\ cell db "name_norm" r = Some n).
  { intros r. rewrite pred_holds_ColIn. split.
    - intros [v [Hv Hin]]. apply Hns in Hin as [Hn Hne]. eauto.
    - intros [n [Hn [Hne Hc]]]. exists n. split; [exact Hc|]. now apply Hns. }
  clearbody ps ns. unfold execute_select_star.
  destruct ps as [|p ps'], ns as [|n ns']; cbn [app].
  - exists WhereFalse. split; [reflexivity|]. intros r. cbn [where_holds].
    split; [discriminate|].
    intros [[p [Hp [Hne _]]]|[n [Hn [Hne _]]]].
    + assert (Hin : In (canonicalize_pan (Some p)) []) by (apply Hps; eauto). destruct Hin.
    + assert (Hin : In n []) by (now apply Hns). destruct Hin.
  - eexists. cbn [check_where check_preds pred_column].
    rewrite Hncol by discriminate. cbn [negb]. split; [reflexivity|].
    intros r. rewrite where_holds_single, Hnin. split; [now right|].
    intros [[p [Hp [Hne _]]]|Hr]; [|assumption].
    assert (Hin : In (canonicalize_pan (Some p)) []) by (apply Hps; eauto). destruct Hin.
  - eexists. cbn [check_where check_preds pred_column].
    rewrite Hpcol by discriminate. cbn [negb]. split; [reflexivity|].
    intros r. rewrite where_holds_single, Hpin. split; [now left|].
    intros [Hr|[n [Hn [Hne _]]]]; [assumption|].
    assert (Hin : In n []) by (now apply Hns). destruct Hin.
  - eexists. cbn [check_where check_preds pred_column].
    rewrite Hpcol, Hncol by discriminate. cbn [negb]. split; [reflexivity|].
    intros r. cbn [where_holds existsb]. rewrite orb_false_r, orb_true_iff, Hpin, Hnin.
    reflexivity.
Qed.

(** X7. On a table with the columns [pan_upper] and [name_norm], closure
    expansion returns only rows of the table, and each returned row either
    carries the canonical form of a non-empty PAN passed in or has a
    non-empty name passed in as its normalised name. *)
Theorem expand_returns_only_matching_rows
    (pans names : list str) (db : Database) (tr : list statement) :
  has_column db "pan_upper" = true -> has_column db "name_norm" = true ->
  exists rows,
    fst (expand_all_transactions_for_entities SP pans names db tr) = Ok rows
    /\ forall r, In r rows -> In r (db_rows db) /\ expansion_match db pans names r.
Proof.
  intros Hpan Hname.
  destruct (expand_rows pans names db tr (or_intror Hpan) (or_intror Hname))
    as [whr [E Hw]].
  rewrite E. cbn [fst]. eexists. split; [reflexivity|].
  intros r Hr. apply in_apply_limit, filter_In in Hr as [Hr Hm].
  split; [assumption | now apply Hw].
Qed.

(** X8. With no row limit set, closure expansion misses nothing: on a table
    with the columns [pan_upper] and [name_norm] it returns every row that
    carries the canonical form of a non-empty PAN passed in or has a
    non-empty name passed in as its normalised name. *)
Theorem expand_complete_without_limit
    (pans names : list str) (db : Database) (tr : list statement) :
  limit_return_rows SP = 0%nat ->
  has_column db "pan_upper" = true -> has_column db "name_norm" = true ->
  exists rows,
    fst (expand_all_transactions_for_entities SP pans names db tr) = Ok rows
    /\ forall r, In r (db_rows db) -> expansion_match db pans names r -> In r rows.
Proof.
  intros Hcap Hpan Hname.
  destruct (expand_rows pans names db tr (or_intror Hpan) (or_intror Hname))
    as [whr [E Hw]].
  rewrite E. cbn [fst]. eexists. split; [reflexivity|].
  intros r Hr Hm. unfold limit_clause. rewrite Hcap. cbn [apply_limit].
  apply filter_In. split; [assumption | now apply Hw].
Qed.

End Expansion.

(** ** The two searches, end to end *)

Lemma run_fst {A} (m : DB A) (db : Database) (tr : list statement) (a : A) :
  fst (m db tr) = Ok a -> exists tr', m db tr = (Ok a, tr').
Proof. destruct (m db tr) as [res tr']. cbn [fst]. intros ->. eauto. Qed.

Section SeedNameSearch.
Context `{Unicode} `{Phonetics} `{Fuzz}.
Variable TH : THRESHOLDS.
Variable SP : SEARCH.

(** X9. A seed name that normalises to the empty string (the empty string,
    or one made of punctuation and whitespace only) yields an empty result:
    blocking executes the schema introspection only, and closure expansion
    executes the always-false select. *)
Theorem search_by_seed_name_with_empty_normal_form
    (seed_name : str) (db : Database) (tr : list statement) :
  normalize_name (Some seed_name) = [] ->
  search_by_seed_name TH SP seed_name db tr
  = (Ok [], tr ++ [PragmaTableInfo "transactions";
                   SelectStar WhereFalse (limit_clause SP)]).
Proof.
  intros Hnorm. unfold search_by_seed_name, bind. rewrite Hnorm.
  rewrite block_without_keys by reflexivity.
  cbn [filter map app r4 r0].
  rewrite expand_without_keys by reflexivity.
  now rewrite <- app_assoc.
Qed.

(** The PANs handed to closure expansion need the column [pan_upper] only
    when the table has it. *)
Lemma candidate_pans_need_column (names : list str) (db : Database)
    (tr tr' : list statement) (candidates : list Row) (keep : Row -> bool) :
  has_column db "name_norm" = true ->
  candidate_block_by_names SP names db tr = (Ok candidates, tr') ->
  filter nonempty (map or_empty (filter truthy (map r4 (filter keep candidates)))) = []
  \/ has_column db "pan_upper" = true.
Proof.
  intros Hname E. destruct (has_column db "pan_upper") eqn:Hpan; [now right|left].
  destruct (candidate_block_rows SP names db tr Hname) as [rows [E' [_ Hrows]]].
  rewrite E in E'. cbn [fst] in E'. injection E' as <-.
  assert (Hall : forall r, In r (filter keep candidates) -> truthy (r4 r) = false).
  { intros r Hr. apply filter_In in Hr as [Hr _].
    destruct (Hrows r Hr) as [t [n [_ [_ [_ [_ [H4 _]]]]]]]. rewrite H4.
    unfold col_or_empty. now rewrite <- col_in_has_column, Hpan. }
  induction (filter keep candidates) as [|r l IH]; [reflexivity|].
  cbn [map filter]. rewrite Hall by now left. apply IH.
  intros r' Hr'. apply Hall. now right.
Qed.

(** X10. On a table that has the column [name_norm], a seed name whose
    normal form is not empty is searched without error, every row returned
    is a row of the table, and, with no row limit set, every row whose
    normalised name equals the normalised seed is returned, whether or not
    the table has a phonetic column. *)
Theorem search_by_seed_name_finds_exact_rows
    (seed_name : str) (db : Database) (tr : list statement) :
  has_column db "name_norm" = true ->
  normalize_name (Some seed_name) <> [] ->
  exists rows,
    fst (search_by_seed_name TH SP seed_name db tr) = Ok rows
    /\ (forall r, In r rows -> In r (db_rows db))
    /\ (limit_return_rows SP = 0%nat ->
        forall r, In r (db_rows db) ->
          cell db "name_norm" r = Some (normalize_name (Some seed_name)) -> In r rows).
Proof.
  intros Hname Hseed. unfold search_by_seed_name, bind.
  set (seed_norm := normalize_name (Some seed_name)) in *.
  destruct (candidate_block_rows SP [seed_norm] db tr Hname) as [cands [E _]].
  apply run_fst in E as [tr' E]. rewrite E.
  set (verified := filter (verify_candidate TH [seed_norm]) cands).
  edestruct (expand_rows SP (map or_empty (filter truthy (map r4 verified)))
               (set_to_list (map (fun r => or_empty (r0 r)) verified ++ [seed_norm]))
               db tr') as [whr [Ex Hw]].
  { apply (candidate_pans_need_column [seed_norm] db tr tr' cands); assumption. }
  { now right. }
  rewrite Ex. cbn [fst]. eexists. split; [reflexivity|]. split.
  - intros r Hr. now apply in_apply_limit, filter_In in Hr.
  - intros Hcap r Hr Hc. unfold limit_clause. rewrite Hcap. cbn [apply_limit].
    apply filter_In. split; [assumption|]. apply Hw. right.
    exists seed_norm. split; [|split; assumption].
    apply set_to_list_In, in_app_iff. right. now left.
Qed.

End SeedNameSearch.

Lemma search_by_seed_name_with_empty_normal_form_witness :
  @search_by_seed_name ucd_excerpt phonetics_upper fuzz_positional TH_example SP_example
    (py " -- ") ledger_example []
  = (Ok [], [] ++ [PragmaTableInfo "transactions";
                   SelectStar WhereFalse (limit_clause SP_example)]).
Proof.
  apply (@search_by_seed_name_with_empty_normal_form ucd_excerpt phonetics_upper
           fuzz_positional TH_example SP_example (py " -- ")).
  reflexivity.
Defined.

Lemma search_by_seed_name_finds_exact_rows_witness :
  exists rows,
    fst (@search_by_seed_name ucd_excerpt phonetics_upper fuzz_positional TH_example
           SP_no_cap (py "John  Doe") ledger_example []) = Ok rows
    /\ (forall r, In r rows -> In r (db_rows ledger_example))
    /\ (limit_return_rows SP_no_cap = 0%nat ->
        forall r, In r (db_rows ledger_example) ->
          cell ledger_example "name_norm" r
          = Some (@normalize_name ucd_excerpt (Some (py "John  Doe"))) -> In r rows).
Proof.
  apply (@search_by_seed_name_finds_exact_rows ucd_excerpt phonetics_upper
           fuzz_positional TH_example SP_no_cap (py "John  Doe") ledger_example []).
  - reflexivity.
  - vm_compute. discriminate.
Defined.

Section PanSearch.
Context `{Unicode} `{Phonetics} `{Fuzz}.
Variable TH : THRESHOLDS.
Variable SP : SEARCH.

(** X11. On a table with the columns [name_norm] and [pan_upper], a PAN
    whose canonical form no row carries yields an empty result after the
    seed lookup alone: neither blocking nor closure expansion is run. *)
Theorem search_by_pan_without_match (pan : ostr) (db : Database) (tr : list statement) :
  has_column db "name_norm" = true -> has_column db "pan_upper" = true ->
  (forall r, In r (db_rows db) -> cell db "pan_upper" r <> Some (canonicalize_pan pan)) ->
  let cols := db_columns db in
  search_by_pan TH SP pan db tr
  = (Ok [], tr ++ [PragmaTableInfo "transactions";
                   Select [Col "name_norm"; col_or_empty "name_phonetic" cols;
                           col_or_empty "address" cols; col_or_empty "mobile" cols;
                           col_or_empty "pan_upper" cols]
                          (WhereOr [ColEq "pan_upper" (canonicalize_pan pan)]) None]).
Proof.
  intros Hname Hpan Hnone. cbn zeta. unfold search_by_pan, bind.
  rewrite fetch_rows_for_pan_ok by assumption. cbn zeta.
  assert (E : filter (where_holds db (WhereOr [ColEq "pan_upper" (canonicalize_pan pan)]))
                     (db_rows db) = []).
  { induction (db_rows db) as [|r rows IH]; [reflexivity|]. cbn [filter].
    rewrite where_holds_single.
    destruct (pred_holds db (ColEq "pan_upper" (canonicalize_pan pan)) r) eqn:Hr.
    - apply pred_holds_ColEq in Hr. exfalso. apply (Hnone r); [now left | assumption].
    - apply IH. intros r' Hr'. apply Hnone. now right. }
  rewrite E. reflexivity.
Qed.

(** X12. On a table with the columns [name_norm] and [pan_upper], a search
    by PAN returns without error and only rows of the table; with no row
    limit set, it returns every row that shares a non-empty normalised name
    with a row carrying the canonical PAN. *)
Theorem search_by_pan_closes_over_names (pan : ostr) (db : Database) (tr : list statement) :
  has_column db "name_norm" = true -> has_column db "pan_upper" = true ->
  exists rows,
    fst (search_by_pan TH SP pan db tr) = Ok rows
    /\ (forall r, In r rows -> In r (db_rows db))
    /\ (limit_return_rows SP = 0%nat ->
        forall t r name,
          In t (db_rows db) -> cell db "pan_upper" t = Some (canonicalize_pan pan) ->
          cell db "name_norm" t = Some name -> name <> [] ->
          In r (db_rows db) -> cell db "name_norm" r = Some name -> In r rows).
Proof.
  intros Hname Hpan. unfold search_by_pan, bind.
  rewrite fetch_rows_for_pan_ok by assumption. cbn zeta.
  set (whr0 := WhereOr [ColEq "pan_upper" (canonicalize_pan pan)]).
  set (proj := fun r : list ostr => (cell db "name_norm" r, _, _, _, cell db "pan_upper" r)).
  set (tr0 := tr ++ _).
  assert (Hbase : forall t, In t (db_rows db) ->
            cell db "pan_upper" t = Some (canonicalize_pan pan) ->
            In (proj t) (map proj (filter (where_holds db whr0) (db_rows db)))).
  { intros t Ht Hc. apply in_map, filter_In. split; [assumption|].
    unfold whr0. rewrite where_holds_single. now apply pred_holds_ColEq. }
  destruct (map proj (filter (where_holds db whr0) (db_rows db))) as [|b base] eqn:Eb.
  - cbn [ret fst]. exists []. split; [reflexivity|]. split; [intros r []|].
    intros _ t r name Ht Hc _ _ _ _. destruct (Hbase t Ht Hc).
  - set (base_rows := b :: base) in *.
    set (base_names := pick_canonical_names (map r0 base_rows)).
    destruct (candidate_block_rows SP base_names db tr0 Hname) as [cands [E _]].
    apply run_fst in E as [tr' E]. rewrite E.
    set (verified := filter (verify_candidate TH base_names) cands).
    edestruct (expand_rows SP
                 (set_to_list (map or_empty (filter truthy (map r4 base_rows))))
                 (set_to_list (map or_empty (filter truthy (map r0 base_rows))
                               ++ map (fun r => or_empty (r0 r)) verified))
                 db tr') as [whr [Ex Hw]]; [now right | now right |].
    rewrite Ex. cbn [fst]. eexists. split; [reflexivity|]. split.
    + intros r Hr. now apply in_apply_limit, filter_In in Hr.
    + intros Hcap t r name Ht Hc Hn Hne Hr Hrn.
      unfold limit_clause. rewrite Hcap. cbn [apply_limit].
      apply filter_In. split; [assumption|]. apply Hw. right.
      exists name. split; [|split; assumption].
      apply set_to_list_In, in_app_iff. left.
      apply in_map_iff. exists (Some name). split; [reflexivity|].
      apply filter_In. split.
      * apply in_map_iff. exists (proj t). split; [unfold proj; cbn [r0]; assumption|].
        now apply Hbase.
      * cbn [truthy]. now apply nonempty_true.
Qed.

End PanSearch.

Lemma search_by_pan_without_match_witness :
  let cols := db_columns ledger_example in
  @search_by_pan ucd_excerpt phonetics_upper fuzz_positional TH_example SP_example
    (Some (py "zzzzz 0000z")) ledger_example []
  = (Ok [], [] ++ [PragmaTableInfo "transactions";
                   Select [Col "name_norm"; col_or_empty "name_phonetic" cols;
                           col_or_empty "address" cols; col_or_empty "mobile" cols;
                           col_or_empty "pan_upper" cols]
                          (WhereOr [ColEq "pan_upper"
                                      (@canonicalize_pan ucd_excerpt (Some (py "zzzzz 0000z")))])
                          None]).
Proof.
  apply (@search_by_pan_without_match ucd_excerpt phonetics_upper fuzz_positional
           TH_example SP_example (Some (py "zzzzz 0000z")) ledger_example []).
  - reflexivity.
  - reflexivity.
  - intros r [<-|[<-|[<-|[]]]]; vm_compute; discriminate.
Defined.

Lemma search_by_pan_closes_over_names_witness :
  exists rows,
    fst (@search_by_pan ucd_excerpt phonetics_upper fuzz_positional TH_example SP_no_cap
           (Some (py "abcde 1234f")) ledger_example []) = Ok rows
    /\ (forall r, In r rows -> In r (db_rows ledger_example))
    /\ (limit_return_rows SP_no_cap = 0%nat ->
        forall t r name,
          In t (db_rows ledger_example) ->
          cell ledger_example "pan_upper" t
          = Some (@canonicalize_pan ucd_excerpt (Some (py "abcde 1234f"))) ->
          cell ledger_example "name_norm" t = Some name -> name <> [] ->
          In r (db_rows ledger_example) ->
          cell ledger_example "name_norm" r = Some name -> In r rows).
Proof.
  apply (@search_by_pan_closes_over_names ucd_excerpt phonetics_upper fuzz_positional
           TH_example SP_no_cap (Some (py "abcde 1234f")) ledger_example []);
    reflexivity.
Defined.

(** ** Script detection *)

(** X13. The detected language is devanagari exactly when some code point
    of the text lies in U+0900..U+097F, so mixed-script text counts as
    Devanagari; every other text, the empty one included, is latin. *)
Theorem detect_language_by_script (text : str) :
  (detect_language text = "devanagari"%string
   <-> Exists (fun cp => 0x0900 <= cp <= 0x097F) text)
  /\ (detect_language text = "latin"%string
      <-> ~ Exists (fun cp => 0x0900 <= cp <= 0x097F) text).
Proof.
  assert (Hblock : Exists (fun cp => 0x0900 <= cp <= 0x097F) text <->
                   is_devanagari text = true).
  { rewrite is_devanagari_Exists.
    split; apply Exists_impl; intros cp; apply in_devanagari_block_range. }
  rewrite Hblock. unfold detect_language.
  destruct (is_devanagari text); split; split; intros E;
    try reflexivity; try discriminate E; try (intros E'; discriminate E');
    exfalso; now apply E.
Qed.

(** ** Whitespace and punctuation folding *)

Section Folding.
Context `{Unicode}.

Lemma words_good (s : str) :
  Forall (fun w => w <> [] /\ Forall (fun c => isspace c = false) w) (words s).
Proof.
  pose proof (words_nonempty s) as Hne. pose proof (words_chars s) as Hch.
  rewrite Forall_forall in *. intros w Hw. split; [now apply Hne|].
  specialize (Hch w Hw). revert Hch. apply Forall_impl. now intros c [_ Hc].
Qed.

Lemma lstrip_nonspace_head (c : Z) (s : str) :
  isspace c = false -> lstrip (c :: s) = c :: s.
Proof. intros Hc. simpl. now rewrite Hc. Qed.

Lemma rstrip_nonspace_last (l : str) (c : Z) :
  isspace c = false -> rstrip (l ++ [c]) = l ++ [c].
Proof.
  intros Hc. unfold rstrip. rewrite rev_app_distr. cbn [rev app].
  rewrite lstrip_nonspace_head by assumption.
  cbn [rev]. now rewrite rev_involutive.
Qed.

Lemma spaced_last (ws : list str) :
  Forall (fun w => w <> [] /\ Forall (fun c => isspace c = false) w) ws -> ws <> [] ->
  exists l c, flat_map (fun v => SPACE :: v) ws = l ++ [c] /\ isspace c = false.
Proof.
  induction 1 as [|w ws [Hne Hw] Hws IH]; [intros Hn; now exfalso|]. intros _.
  destruct ws as [|v ws'].
  - destruct (exists_last Hne) as [l [c ->]]. exists (SPACE :: l), c.
    cbn [flat_map app]. rewrite app_nil_r. split; [reflexivity|].
    apply Forall_app in Hw as [_ Hc]. now inversion Hc.
  - destruct IH as [l [c [E Hc]]]; [discriminate|].
    exists (SPACE :: w ++ l), c. split; [|assumption].
    change (flat_map (fun v0 => SPACE :: v0) (w :: v :: ws'))
      with (SPACE :: w ++ flat_map (fun v0 => SPACE :: v0) (v :: ws')).
    rewrite E. cbn [app]. now rewrite app_assoc.
Qed.

Lemma unwords_last (ws : list str) :
  Forall (fun w => w <> [] /\ Forall (fun c => isspace c = false) w) ws -> ws <> [] ->
  exists l c, unwords ws = l ++ [c] /\ isspace c = false.
Proof.
  intros Hws Hne. destruct ws as [|w ws]; [congruence|].
  inversion Hws as [|? ? [Hw Hc] Hws']; subst. clear Hws. rename Hws' into Hws.
  cbn [unwords]. destruct ws as [|v ws'].
  - destruct (exists_last Hw) as [l [c ->]]. exists l, c.
    cbn [flat_map]. rewrite app_nil_r. split; [reflexivity|].
    apply Forall_app in Hc as [_ Hc]. now inversion Hc.
  - destruct (spaced_last (v :: ws') Hws) as [l [c [E Hsp]]]; [discriminate|].
    exists (w ++ l), c. rewrite E. now rewrite app_assoc.
Qed.

Hypothesis isspace_SPACE : isspace SPACE = true.

(** X14. Whitespace folding is idempotent, for every table of whitespace
    characters that contains the space. *)
Theorem normalize_whitespace_idempotent (s : str) :
  normalize_whitespace (normalize_whitespace s) = normalize_whitespace s.
Proof.
  rewrite !(normalize_whitespace_unwords isspace_SPACE).
  now rewrite (words_unwords isspace_SPACE) by apply words_good.
Qed.

(** X15. The folded text keeps the tokens of the input, neither starts nor
    ends with whitespace, and the only whitespace left in it is U+0020. *)
Theorem normalize_whitespace_shape (s : str) :
  words (normalize_whitespace s) = words s
  /\ lstrip (normalize_whitespace s) = normalize_whitespace s
  /\ rstrip (normalize_whitespace s) = normalize_whitespace s
  /\ Forall (fun c => isspace c = true -> c = SPACE) (normalize_whitespace s).
Proof.
  rewrite (normalize_whitespace_unwords isspace_SPACE).
  pose proof (words_good s) as Hgood. repeat split.
  - now apply (words_unwords isspace_SPACE).
  - destruct Hgood as [|w ws [Hne Hw] _]; [reflexivity|].
    destruct w as [|c w]; [congruence|]. inversion Hw; subst.
    cbn [unwords app]. now apply lstrip_nonspace_head.
  - destruct (words s) as [|w ws] eqn:E; [reflexivity|].
    destruct (unwords_last (w :: ws) Hgood) as [l [c [-> Hc]]]; [discriminate|].
    now apply rstrip_nonspace_last.
  - apply Forall_unwords; [reflexivity|].
    revert Hgood. apply Forall_impl. intros w [_ Hw]. revert Hw. apply Forall_impl.
    intros c Hc Hc'. congruence.
Qed.

(** X16. Punctuation folding keeps the length of the text and is
    idempotent: what it leaves in place it leaves in place again. *)
Theorem normalize_punct_idempotent (s : str) :
  List.length (normalize_punct s) = List.length s
  /\ normalize_punct (normalize_punct s) = normalize_punct s.
Proof.
  split; [apply length_map|].
  apply normalize_punct_kept.
  pose proof (normalize_punct_chars isspace_SPACE (fun _ => True) s I) as Hch.
  assert (Hall : Forall (fun _ : Z => True) s) by now apply Forall_forall.
  specialize (Hch Hall). revert Hch. apply Forall_impl. now intros c [_ Hc].
Qed.

End Folding.

Lemma normalize_whitespace_idempotent_witness :
  @normalize_whitespace ucd_excerpt (@normalize_whitespace ucd_excerpt (py "  a   b "))
  = @normalize_whitespace ucd_excerpt (py "  a   b ").
Proof. apply (@normalize_whitespace_idempotent ucd_excerpt). reflexivity. Defined.

Lemma normalize_whitespace_shape_witness :
  @words ucd_excerpt (@normalize_whitespace ucd_excerpt (py "  a   b "))
  = @words ucd_excerpt (py "  a   b ")
  /\ @lstrip ucd_excerpt (@normalize_whitespace ucd_excerpt (py "  a   b "))
     = @normalize_whitespace ucd_excerpt (py "  a   b ")
  /\ @rstrip ucd_excerpt (@normalize_whitespace ucd_excerpt (py "  a   b "))
     = @normalize_whitespace ucd_excerpt (py "  a   b ")
  /\ Forall (fun c => @isspace ucd_excerpt c = true -> c = SPACE)
            (@normalize_whitespace ucd_excerpt (py "  a   b ")).
Proof. apply (@normalize_whitespace_shape ucd_excerpt). reflexivity. Defined.

Lemma normalize_punct_idempotent_witness :
  List.length (@normalize_punct ucd_excerpt (py "a.b, c"))
  = List.length (py "a.b, c")
  /\ @normalize_punct ucd_excerpt (@normalize_punct ucd_excerpt (py "a.b, c"))
     = @normalize_punct ucd_excerpt (py "a.b, c").
Proof. apply (@normalize_punct_idempotent ucd_excerpt). reflexivity. Defined.

(** ** Normalised names and canonical PANs on ASCII text *)

Lemma ascii_upper_isspace (c : Z) : ascii_isspace (ascii_upper c) = ascii_isspace c.
Proof. ascii_cases. Qed.

Lemma ascii_upper_idem (c : Z) : ascii_upper (ascii_upper c) = ascii_upper c.
Proof. ascii_cases. Qed.

Lemma ascii_upper_lower (c : Z) : ascii_upper (ascii_lower c) = ascii_upper c.
Proof. ascii_cases. Qed.

Lemma ascii_upper_is_ascii (c : Z) : is_ascii c -> is_ascii (ascii_upper c).
Proof. intros Hc. ascii_cases. Qed.

Lemma ascii_lowered_name_char (c : Z) :
  ascii_isalnum c || (c =? UNDERSCORE) = true ->
  ascii_lower c = UNDERSCORE \/ 48 <= ascii_lower c <= 57 \/ 97 <= ascii_lower c <= 122.
Proof.
  unfold ascii_isalnum, ascii_lower, UNDERSCORE.
  rewrite !orb_true_iff, !andb_true_iff, !Z.leb_le, Z.eqb_eq. intros Hc.
  destruct (Z.leb_spec 65 c), (Z.leb_spec c 90); cbn [andb]; lia.
Qed.

Section AsciiNames.
Context {U : Unicode}.
Hypothesis AF : AsciiFaithful U.

(** X17. The normal form of an ASCII name is made of lower-case letters,
    digits, underscores and single spaces only: no upper-case letter and no
    punctuation survives. *)
Theorem normalize_name_ascii_alphabet (raw : ostr) :
  Forall is_ascii (or_empty raw) ->
  Forall (fun c => c = SPACE \/ c = UNDERSCORE \/ 48 <= c <= 57 \/ 97 <= c <= 122)
         (normalize_name raw).
Proof.
  intros Hx. destruct raw as [x|]; [|constructor].
  destruct (str_eq_dec x []) as [->|Hne]; [constructor|].
  cbn [or_empty] in Hx. rewrite (normalize_name_ascii AF x) by assumption.
  rewrite <- (map_unwords ascii_lower _ ascii_lower_SPACE).
  apply Forall_map.
  apply Forall_unwords; [now left|].
  pose proof (words_of_normalize_punct AF x Hx) as Hws.
  revert Hws. apply Forall_impl. intros w [_ Hw]. revert Hw. apply Forall_impl.
  intros c [Hc [Hs Hp]]. right. apply ascii_lowered_name_char.
  unfold re_punct, re_word in Hp. rewrite Hs in Hp.
  rewrite (af_isalnum U AF) in Hp by assumption.
  pose proof (ascii_not_devanagari c Hc) as Hd.
  unfold in_devanagari_block, DEVANAGARI_BLOCK in Hd. cbn [fst snd] in Hd.
  rewrite Hd, !orb_false_r in Hp. now apply negb_false_iff in Hp.
Qed.

End AsciiNames.

Lemma normalize_name_ascii_alphabet_witness :
  Forall (fun c => c = SPACE \/ c = UNDERSCORE \/ 48 <= c <= 57 \/ 97 <= c <= 122)
         (@normalize_name ucd_excerpt (Some (py "  John_Doe,  jr. "))).
Proof.
  apply (@normalize_name_ascii_alphabet ucd_excerpt ucd_excerpt_ascii_faithful
           (Some (py "  John_Doe,  jr. "))).
  unfold is_ascii. repeat constructor; vm_compute; discriminate.
Defined.

Section CanonicalPan.
Context {U : Unicode}.

Lemma re_sub_ws_empty (s : str) :
  re_sub_ws [] s = filter (fun c => negb (isspace c)) s
  /\ re_sub_ws_run [] s = filter (fun c => negb (isspace c)) s.
Proof.
  induction s as [|c s [IH1 IH2]]; [split; reflexivity|].
  rewrite re_sub_ws_cons, re_sub_ws_run_cons. cbn [filter app].
  destruct (isspace c); cbn [negb]; split; congruence.
Qed.

Hypothesis AUF : AsciiUpperFaithful U.

Lemma filter_ascii_space (s : str) :
  Forall is_ascii s ->
  filter (fun c => negb (isspace c)) s = filter (fun c => negb (ascii_isspace c)) s
  /\ Forall is_ascii (filter (fun c => negb (ascii_isspace c)) s).
Proof.
  induction 1 as [|c s Hc Hs [IH1 IH2]]; [split; [reflexivity | constructor]|].
  cbn [filter]. rewrite (au_isspace U AUF) by assumption.
  destruct (ascii_isspace c); cbn [negb]; split; try congruence; auto.
Qed.

Lemma canonicalize_pan_ascii_form (pan : ostr) :
  Forall is_ascii (or_empty pan) ->
  canonicalize_pan pan
  = map ascii_upper (filter (fun c => negb (ascii_isspace c)) (or_empty pan)).
Proof.
  intros Hp. destruct pan as [[|c p]|]; try reflexivity.
  cbn [or_empty] in *. unfold canonicalize_pan.
  destruct (re_sub_ws_empty (c :: p)) as [-> _].
  destruct (filter_ascii_space (c :: p) Hp) as [-> Hf].
  now apply (au_upper U AUF).
Qed.

Lemma canonical_pan_fixed (p : str) :
  Forall is_ascii p ->
  let q := map ascii_upper (filter (fun c => negb (ascii_isspace c)) p) in
  Forall is_ascii q
  /\ map ascii_upper (filter (fun c => negb (ascii_isspace c)) q) = q.
Proof.
  cbn zeta. induction 1 as [|c p Hc Hp [IH1 IH2]]; [split; [constructor | reflexivity]|].
  cbn [filter]. destruct (ascii_isspace c) eqn:Hs; cbn [negb]; [now split|].
  cbn [map filter]. rewrite ascii_upper_isspace, Hs. cbn [negb map].
  rewrite ascii_upper_idem, IH2. split; [|reflexivity].
  constructor; [now apply ascii_upper_is_ascii | assumption].
Qed.

Lemma canonicalize_pan_fixed (pan : ostr) :
  Forall is_ascii (or_empty pan) ->
  Forall is_ascii (canonicalize_pan pan)
  /\ canonicalize_pan (Some (canonicalize_pan pan)) = canonicalize_pan pan.
Proof.
  intros Hp. rewrite (canonicalize_pan_ascii_form pan Hp).
  destruct (canonical_pan_fixed (or_empty pan) Hp) as [Hq Hfix]. split; [assumption|].
  rewrite (canonicalize_pan_ascii_form (Some _)) by assumption. exact Hfix.
Qed.

(** X18. On ASCII input the canonical PAN is the input without its
    whitespace, upper-cased; absent and empty input give the empty string. *)
Theorem canonicalize_pan_on_ascii (pan : ostr) :
  Forall is_ascii (or_empty pan) ->
  canonicalize_pan pan
  = map ascii_upper (filter (fun c => negb (ascii_isspace c)) (or_empty pan)).
Proof. apply canonicalize_pan_ascii_form. Qed.

(** X19. Canonicalising an ASCII PAN twice is the same as canonicalising it
    once, and the case of the input does not matter: lower-casing the input
    first gives the same canonical PAN. *)
Theorem canonicalize_pan_idempotent_on_ascii (pan : str) :
  Forall is_ascii pan ->
  canonicalize_pan (Some (canonicalize_pan (Some pan))) = canonicalize_pan (Some pan)
  /\ canonicalize_pan (Some (map ascii_lower pan)) = canonicalize_pan (Some pan).
Proof.
  intros Hp. split; [now apply canonicalize_pan_fixed|].
  assert (Hl : Forall is_ascii (map ascii_lower pan)).
  { apply Forall_map. revert Hp. apply Forall_impl. apply ascii_lower_is_ascii. }
  rewrite !canonicalize_pan_ascii_form by assumption. cbn [or_empty].
  clear Hl. induction Hp as [|c p Hc Hp IH]; [reflexivity|].
  cbn [map filter]. rewrite ascii_lower_isspace.
  destruct (ascii_isspace c); cbn [negb map]; [exact IH|].
  now rewrite ascii_upper_lower, IH.
Qed.

End CanonicalPan.

Lemma ucd_excerpt_ascii_upper_faithful : AsciiUpperFaithful ucd_excerpt.
Proof. constructor; reflexivity. Qed.

Lemma canonicalize_pan_on_ascii_witness :
  @canonicalize_pan ucd_excerpt (Some (py "abcde 1234f"))
  = map ascii_upper (filter (fun c => negb (ascii_isspace c)) (py "abcde 1234f")).
Proof.
  apply (@canonicalize_pan_on_ascii ucd_excerpt ucd_excerpt_ascii_upper_faithful
           (Some (py "abcde 1234f"))).
  unfold is_ascii. repeat constructor; vm_compute; discriminate.
Defined.

Lemma canonicalize_pan_idempotent_on_ascii_witness :
  @canonicalize_pan ucd_excerpt (Some (@canonicalize_pan ucd_excerpt (Some (py "Abcde 1234f"))))
  = @canonicalize_pan ucd_excerpt (Some (py "Abcde 1234f"))
  /\ @canonicalize_pan ucd_excerpt (Some (map ascii_lower (py "Abcde 1234f")))
     = @canonicalize_pan ucd_excerpt (Some (py "Abcde 1234f")).
Proof.
  apply (@canonicalize_pan_idempotent_on_ascii ucd_excerpt ucd_excerpt_ascii_upper_faithful
           (py "Abcde 1234f")).
  unfold is_ascii. repeat constructor; vm_compute; discriminate.
Defined.

Section PanSearchAscii.
Context {U : Unicode} `{Phonetics} `{Fuzz}.
Hypothesis AUF : AsciiUpperFaithful U.
Variable TH : THRESHOLDS.
Variable SP : SEARCH.

(** X20. With no row limit set, a search by an ASCII PAN whose canonical
    form is not empty returns every row of the table that carries the
    canonical PAN (on a table with the columns [name_norm] and
    [pan_upper]): the second canonicalisation inside closure expansion
    leaves the canonical PAN as it is. *)
Theorem search_by_pan_returns_rows_with_pan
    (pan : ostr) (db : Database) (tr : list statement) :
  has_column db "name_norm" = true -> has_column db "pan_upper" = true ->
  limit_return_rows SP = 0%nat ->
  Forall is_ascii (or_empty pan) -> canonicalize_pan pan <> [] ->
  exists rows,
    fst (search_by_pan TH SP pan db tr) = Ok rows
    /\ forall t, In t (db_rows db) ->
         cell db "pan_upper" t = Some (canonicalize_pan pan) -> In t rows.
Proof.
  intros Hname Hpan Hcap Hascii Hne. unfold search_by_pan, bind.
  rewrite fetch_rows_for_pan_ok by assumption. cbn zeta.
  set (whr0 := WhereOr [ColEq "pan_upper" (canonicalize_pan pan)]).
  set (proj := fun r : list ostr => (cell db "name_norm" r, _, _, _, cell db "pan_upper" r)).
  set (tr0 := tr ++ _).
  assert (Hbase : forall t, In t (db_rows db) ->
            cell db "pan_upper" t = Some (canonicalize_pan pan) ->
            In (proj t) (map proj (filter (where_holds db whr0) (db_rows db)))).
  { intros t Ht Hc. apply in_map, filter_In. split; [assumption|].
    unfold whr0. rewrite where_holds_single. now apply pred_holds_ColEq. }
  destruct (map proj (filter (where_holds db whr0) (db_rows db))) as [|b base] eqn:Eb.
  - cbn [ret fst]. exists []. split; [reflexivity|].
    intros t Ht Hc. destruct (Hbase t Ht Hc).
  - set (base_rows := b :: base) in *.
    set (base_names := pick_canonical_names (map r0 base_rows)).
    destruct (candidate_block_rows SP base_names db tr0 Hname) as [cands [E _]].
    apply run_fst in E as [tr' E]. rewrite E.
    set (verified := filter (verify_candidate TH base_names) cands).
    edestruct (expand_rows SP
                 (set_to_list (map or_empty (filter truthy (map r4 base_rows))))
                 (set_to_list (map or_empty (filter truthy (map r0 base_rows))
                               ++ map (fun r => or_empty (r0 r)) verified))
                 db tr') as [whr [Ex Hw]]; [now right | now right |].
    rewrite Ex. cbn [fst]. eexists. split; [reflexivity|].
    intros t Ht Hc. unfold limit_clause. rewrite Hcap. cbn [apply_limit].
    apply filter_In. split; [assumption|]. apply Hw. left.
    exists (canonicalize_pan pan). split; [|split; [assumption|]].
    + apply set_to_list_In, in_map_iff. exists (Some (canonicalize_pan pan)).
      split; [reflexivity|]. apply filter_In. split.
      * apply in_map_iff. exists (proj t). split; [unfold proj; cbn [r4]; assumption|].
        now apply Hbase.
      * cbn [truthy]. now apply nonempty_true.
    + rewrite Hc. f_equal. symmetry. now apply (canonicalize_pan_fixed AUF).
Qed.

End PanSearchAscii.

Lemma search_by_pan_returns_rows_with_pan_witness :
  exists rows,
    fst (@search_by_pan ucd_excerpt phonetics_upper fuzz_positional TH_example SP_no_cap
           (Some (py "abcde 1234f")) ledger_example []) = Ok rows
    /\ forall t, In t (db_rows ledger_example) ->
         cell ledger_example "pan_upper" t
         = Some (@canonicalize_pan ucd_excerpt (Some (py "abcde 1234f"))) -> In t rows.
Proof.
  apply (@search_by_pan_returns_rows_with_pan ucd_excerpt phonetics_upper fuzz_positional
           ucd_excerpt_ascii_upper_faithful TH_example SP_no_cap
           (Some (py "abcde 1234f")) ledger_example []); try reflexivity.
  - unfold is_ascii. repeat constructor; vm_compute; discriminate.
  - vm_compute. discriminate.
Defined.


(** ** PAN codes out of free text *)

Lemma match_classes_length (classes : list (Z -> bool)) (s : str) :
  match_classes classes s = true -> (List.length classes <= List.length s)%nat.
Proof.
  revert s. induction classes as [|cl classes IH]; intros s; simpl; [lia|].
  destruct s as [|c s]; [discriminate|]. rewrite andb_true_iff. intros [_ Hm].
  specialize (IH s Hm). simpl. lia.
Qed.

Lemma match_classes_firstn (classes : list (Z -> bool)) (s : str) :
  match_classes classes s = true ->
  match_classes classes (firstn (List.length classes) s) = true.
Proof.
  revert s. induction classes as [|cl classes IH]; intros s; simpl; [reflexivity|].
  destruct s as [|c s]; [discriminate|]. rewrite !andb_true_iff. intros [Hc Hm].
  simpl. rewrite Hc. auto.
Qed.

Section PanCodes.
Context `{Unicode} `{RegexCase}.

Lemma pan_match_at_length (prev_word : bool) (s : str) :
  pan_match_at prev_word s = true -> (10 <= List.length s)%nat.
Proof.
  unfold pan_match_at. rewrite !andb_true_iff. intros [[_ Hm] _].
  apply match_classes_length in Hm. exact Hm.
Qed.

Lemma pan_finditer_count (skip : nat) (prev_word : bool) (s : str) :
  (10 * List.length (pan_finditer skip prev_word s) <= List.length s - skip)%nat.
Proof.
  revert skip prev_word. induction s as [|c s IH]; intros skip prev_word; [simpl; lia|].
  cbn [pan_finditer]. destruct skip as [|k].
  - destruct (pan_match_at prev_word (c :: s)) eqn:Hm.
    + apply pan_match_at_length in Hm. specialize (IH 9%nat (re_word c)).
      cbn [List.length] in *. lia.
    + specialize (IH 0%nat (re_word c)). cbn [List.length]. lia.
  - specialize (IH k (re_word c)). cbn [List.length]. lia.
Qed.

(** Every match is a piece of the text, ten characters of the classes. *)
Lemma pan_finditer_matches (skip : nat) (prev_word : bool) (s : str) :
  Forall (fun m => match_classes pan_classes m = true /\ List.length m = 10%nat
                   /\ substring m s)
         (pan_finditer skip prev_word s).
Proof.
  revert skip prev_word. induction s as [|c s IH]; intros skip prev_word; [constructor|].
  assert (Hlift : forall l, Forall (fun m => match_classes pan_classes m = true
                                      /\ List.length m = 10%nat /\ substring m s) l ->
                  Forall (fun m => match_classes pan_classes m = true
                                      /\ List.length m = 10%nat /\ substring m (c :: s)) l).
  { intros l. apply Forall_impl. intros m [Hm [Hl [pre [post E]]]].
    repeat split; try assumption. exists (c :: pre), post. simpl. now rewrite E. }
  cbn [pan_finditer]. destruct skip as [|k]; [|apply Hlift, IH].
  destruct (pan_match_at prev_word (c :: s)) eqn:Hm; [|apply Hlift, IH].
  constructor; [|apply Hlift, IH].
  pose proof (pan_match_at_length _ _ Hm) as Hlen.
  unfold pan_match_at in Hm. rewrite !andb_true_iff in Hm. destruct Hm as [[_ Hm] _].
  repeat split.
  - now apply (match_classes_firstn pan_classes).
  - rewrite length_firstn. lia.
  - exists [], (skipn 10 (c :: s)). cbn [app]. symmetry. apply firstn_skipn.
Qed.

(** X21. The codes extracted from a text come from non-overlapping matches
    of ten characters each: a text of [n] characters yields at most [n / 10]
    codes, and absent or empty text yields none. *)
Theorem extract_pan_codes_count (blob : ostr) :
  (10 * List.length (extract_pan_codes blob) <= List.length (or_empty blob))%nat
  /\ extract_pan_codes None = [] /\ extract_pan_codes (Some []) = [].
Proof.
  split; [|split; reflexivity].
  destruct blob as [[|c s]|]; cbn [extract_pan_codes or_empty]; try (simpl; lia).
  rewrite length_map. pose proof (pan_finditer_count 0 false (c :: s)). lia.
Qed.

End PanCodes.

Lemma ascii_letter_canonical (c : Z) :
  ((65 <=? c) && (c <=? 90)) || ((97 <=? c) && (c <=? 122)) = true ->
  ascii_isspace c = false /\ upper_letter (ascii_upper c) = true.
Proof.
  rewrite orb_true_iff, !andb_true_iff, !Z.leb_le. intros Hc.
  unfold ascii_isspace, upper_letter, ascii_upper.
  destruct (Z.leb_spec 97 c), (Z.leb_spec c 122); cbn [andb];
    rewrite ?andb_true_iff, ?orb_false_iff, ?andb_false_iff, ?Z.leb_le, ?Z.leb_gt; lia.
Qed.

Lemma ascii_digit_canonical (c : Z) :
  re_digit c = true -> ascii_isspace c = false /\ re_digit (ascii_upper c) = true.
Proof.
  unfold re_digit. rewrite !andb_true_iff, !Z.leb_le. intros Hc.
  unfold ascii_isspace, ascii_upper.
  destruct (Z.leb_spec 97 c), (Z.leb_spec c 122); cbn [andb];
    rewrite ?andb_true_iff, ?orb_false_iff, ?andb_false_iff, ?Z.leb_le, ?Z.leb_gt; lia.
Qed.

(** Classes whose characters are no whitespace and stay in a class when
    upper-cased. *)
Lemma match_classes_canonical (classes classes' : list (Z -> bool)) (m : str) :
  Forall2 (fun cl cl' => forall c, is_ascii c -> cl c = true ->
                           ascii_isspace c = false /\ cl' (ascii_upper c) = true)
          classes classes' ->
  Forall is_ascii m -> List.length m = List.length classes ->
  match_classes classes m = true ->
  filter (fun c => negb (ascii_isspace c)) m = m
  /\ match_classes classes' (map ascii_upper m) = true.
Proof.
  intros Hcls. revert m.
  induction Hcls as [|cl cl' classes classes' Hcl _ IH]; intros m Hm Hlen Hmatch.
  - destruct m; [split; reflexivity | discriminate].
  - destruct m as [|c m]; [discriminate|]. inversion Hm; subst.
    cbn [match_classes] in Hmatch. apply andb_true_iff in Hmatch as [Hc Hrest].
    destruct (Hcl c) as [Hs Hu]; try assumption.
    destruct (IH m) as [Hf Hm']; try assumption; [now injection Hlen|].
    cbn [filter map match_classes]. rewrite Hs, Hu, Hf, Hm'. now split.
Qed.

Lemma substring_Forall (P : Z -> Prop) (m s : str) :
  substring m s -> Forall P s -> Forall P m.
Proof.
  intros [pre [post ->]] Hs. apply Forall_app in Hs as [_ Hs].
  now apply Forall_app in Hs as [Hm _].
Qed.

Section PanCodesAscii.
Context {U : Unicode} {R : RegexCase}.
Hypothesis AUF : AsciiUpperFaithful U.
Hypothesis ACF : AsciiCaseFaithful R.

Lemma pan_classes_canonical :
  Forall2 (fun cl cl' => forall c, is_ascii c -> cl c = true ->
                           ascii_isspace c = false /\ cl' (ascii_upper c) = true)
          pan_classes
          [upper_letter; upper_letter; upper_letter; upper_letter; upper_letter;
           re_digit; re_digit; re_digit; re_digit; upper_letter].
Proof.
  assert (Hl : forall c, is_ascii c -> icase_A_Z c = true ->
                 ascii_isspace c = false /\ upper_letter (ascii_upper c) = true).
  { intros c Hc Hi. rewrite ACF in Hi by assumption. now apply ascii_letter_canonical. }
  assert (Hd : forall c, is_ascii c -> re_digit c = true ->
                 ascii_isspace c = false /\ re_digit (ascii_upper c) = true).
  { intros c _. apply ascii_digit_canonical. }
  unfold pan_classes.
  repeat (apply Forall2_cons; [first [exact Hl | exact Hd]|]). apply Forall2_nil.
Qed.

(** X22. Every code extracted from ASCII text is a well-formed PAN in
    canonical form: five upper-case letters, four digits and one upper-case
    letter, whatever the letter case in the text was. *)
Theorem extract_pan_codes_well_formed (blob : ostr) :
  Forall is_ascii (or_empty blob) ->
  Forall well_formed_pan (extract_pan_codes blob).
Proof.
  intros Hb. destruct blob as [[|c s]|]; cbn [extract_pan_codes]; try constructor.
  cbn [or_empty] in Hb. apply Forall_map.
  pose proof (pan_finditer_matches 0 false (c :: s)) as Hms.
  revert Hms. apply Forall_impl. intros m [Hm [Hlen Hsub]].
  pose proof (substring_Forall is_ascii m (c :: s) Hsub Hb) as Hascii.
  rewrite (canonicalize_pan_ascii_form AUF (Some m)) by assumption. cbn [or_empty].
  destruct (match_classes_canonical _ _ m pan_classes_canonical Hascii) as [Hf Hw];
    [rewrite Hlen; reflexivity | assumption |].
  rewrite Hf. split; [assumption|]. now rewrite length_map.
Qed.

End PanCodesAscii.

Lemma regex_case_ascii_faithful : AsciiCaseFaithful regex_case_ascii.
Proof. intros cp _. reflexivity. Qed.

Lemma extract_pan_codes_well_formed_witness :
  Forall well_formed_pan
    (@extract_pan_codes ucd_excerpt regex_case_ascii
       (Some (py "pan: abcde1234f, XABCDE1234F (ZZZZZ9999Z)"))).
Proof.
  apply (@extract_pan_codes_well_formed ucd_excerpt regex_case_ascii
           ucd_excerpt_ascii_upper_faithful regex_case_ascii_faithful
           (Some (py "pan: abcde1234f, XABCDE1234F (ZZZZZ9999Z)"))).
  unfold is_ascii. repeat constructor; vm_compute; discriminate.
Defined.

Lemma ascii_letter_of_canonical (c : Z) :
  upper_letter (ascii_upper c) = true ->
  ((65 <=? c) && (c <=? 90)) || ((97 <=? c) && (c <=? 122)) = true.
Proof.
  unfold upper_letter, ascii_upper.
  destruct (Z.leb_spec 97 c), (Z.leb_spec c 122); cbn [andb];
    rewrite ?orb_true_iff, ?andb_true_iff, ?Z.leb_le; lia.
Qed.

Lemma ascii_digit_of_canonical (c : Z) :
  re_digit (ascii_upper c) = true -> re_digit c = true.
Proof.
  unfold re_digit, ascii_upper.
  destruct (Z.leb_spec 97 c), (Z.leb_spec c 122); cbn [andb];
    rewrite ?andb_true_iff, ?Z.leb_le; lia.
Qed.

Lemma ascii_letter_isalnum (c : Z) :
  ((65 <=? c) && (c <=? 90)) || ((97 <=? c) && (c <=? 122)) = true ->
  ascii_isalnum c = true.
Proof.
  unfold ascii_isalnum. rewrite !orb_true_iff, !andb_true_iff, !Z.leb_le. tauto.
Qed.

Lemma match_classes_of_canonical (classes classes' : list (Z -> bool)) (m : str) :
  Forall2 (fun cl cl' => forall c, is_ascii c -> cl' (ascii_upper c) = true -> cl c = true)
          classes classes' ->
  Forall is_ascii m ->
  match_classes classes' (map ascii_upper m) = true -> match_classes classes m = true.
Proof.
  intros Hcls. revert m.
  induction Hcls as [|cl cl' classes classes' Hcl _ IH]; intros m Hm Hmatch; [reflexivity|].
  destruct m as [|c m]; [discriminate|]. inversion Hm; subst.
  cbn [map match_classes] in *. apply andb_true_iff in Hmatch as [Hc Hrest].
  rewrite (Hcl c), IH by assumption. reflexivity.
Qed.

Section PanAlone.
Context {U : Unicode} {R : RegexCase}.
Hypothesis AF : AsciiFaithful U.
Hypothesis AUF : AsciiUpperFaithful U.
Hypothesis ACF : AsciiCaseFaithful R.

Lemma pan_finditer_short (skip : nat) (prev_word : bool) (s : str) :
  (List.length s <= skip)%nat -> pan_finditer skip prev_word s = [].
Proof.
  revert skip prev_word. induction s as [|c s IH]; intros skip prev_word Hlen; [reflexivity|].
  cbn [pan_finditer]. destruct skip as [|k]; [simpl in Hlen; lia|].
  apply IH. simpl in Hlen. lia.
Qed.

Lemma pan_classes_of_canonical :
  Forall2 (fun cl cl' => forall c, is_ascii c -> cl' (ascii_upper c) = true -> cl c = true)
          pan_classes
          [upper_letter; upper_letter; upper_letter; upper_letter; upper_letter;
           re_digit; re_digit; re_digit; re_digit; upper_letter].
Proof.
  assert (Hl : forall c, is_ascii c -> upper_letter (ascii_upper c) = true ->
                 icase_A_Z c = true).
  { intros c Hc Hu. rewrite ACF by assumption. now apply ascii_letter_of_canonical. }
  assert (Hd : forall c, is_ascii c -> re_digit (ascii_upper c) = true -> re_digit c = true).
  { intros c _. apply ascii_digit_of_canonical. }
  unfold pan_classes.
  repeat (apply Forall2_cons; [first [exact Hl | exact Hd]|]). apply Forall2_nil.
Qed.

Lemma ascii_letter_is_word (c : Z) :
  is_ascii c -> icase_A_Z c = true -> re_word c = true.
Proof.
  intros Hc Hi. rewrite ACF in Hi by assumption. unfold re_word.
  rewrite (af_isalnum U AF) by assumption. now rewrite ascii_letter_isalnum.
Qed.

(** X23. A text that consists of one PAN, in whatever letter case, yields
    exactly that PAN in canonical form. *)
Theorem extract_pan_codes_of_a_pan (p : str) :
  Forall is_ascii p -> well_formed_pan (map ascii_upper p) ->
  extract_pan_codes (Some p) = [map ascii_upper p].
Proof.
  intros Hp [Hshape Hlen]. rewrite length_map in Hlen.
  pose proof (match_classes_of_canonical _ _ p pan_classes_of_canonical Hp Hshape) as Hm.
  destruct (match_classes_canonical _ _ p (pan_classes_canonical ACF) Hp) as [Hf _];
    [now rewrite Hlen | assumption |].
  assert (Hcanon : canonicalize_pan (Some p) = map ascii_upper p).
  { rewrite (canonicalize_pan_ascii_form AUF (Some p)) by assumption.
    cbn [or_empty]. now rewrite Hf. }
  destruct p as [|c0 [|c1 [|c2 [|c3 [|c4 [|c5 [|c6 [|c7 [|c8 [|c9 [|c10 p']]]]]]]]]]];
    try discriminate Hlen.
  set (p := [c0; c1; c2; c3; c4; c5; c6; c7; c8; c9]) in *.
  assert (H0 : re_word c0 = true).
  { apply ascii_letter_is_word; [now inversion Hp|].
    unfold p, pan_classes in Hm. cbn [match_classes] in Hm.
    now apply andb_true_iff in Hm as [Hm _]. }
  assert (H9 : re_word c9 = true).
  { apply ascii_letter_is_word.
    - unfold p in Hp. do 9 (apply Forall_inv_tail in Hp). now apply Forall_inv in Hp.
    - unfold p, pan_classes in Hm. cbn [match_classes] in Hm.
      do 9 (apply andb_true_iff in Hm as [_ Hm]).
      now apply andb_true_iff in Hm as [Hm _]. }
  assert (Hat : pan_match_at false p = true).
  { unfold pan_match_at. rewrite Hm. unfold p. cbn [word_at skipn].
    now rewrite H0, H9. }
  unfold extract_pan_codes. fold p.
  change (pan_finditer 0 false p)
    with (if pan_match_at false p
          then firstn 10 p :: pan_finditer 9 (re_word c0) [c1; c2; c3; c4; c5; c6; c7; c8; c9]
          else pan_finditer 0 (re_word c0) [c1; c2; c3; c4; c5; c6; c7; c8; c9]).
  rewrite Hat, pan_finditer_short by (simpl; lia).
  change (firstn 10 p) with p. cbn [map]. now rewrite Hcanon.
Qed.

End PanAlone.

Lemma extract_pan_codes_of_a_pan_witness :
  @extract_pan_codes ucd_excerpt regex_case_ascii (Some (py "abcde1234F"))
  = [map ascii_upper (py "abcde1234F")].
Proof.
  apply (@extract_pan_codes_of_a_pan ucd_excerpt regex_case_ascii
           ucd_excerpt_ascii_faithful ucd_excerpt_ascii_upper_faithful
           regex_case_ascii_faithful (py "abcde1234F")).
  - unfold is_ascii. repeat constructor; vm_compute; discriminate.
  - split; reflexivity.
Defined.

(** ** Names out of free text *)

Lemma existsb_str_eqb_ext (x : str) (l l' : list str) :
  (forall y, In y l <-> In y l') -> existsb (str_eqb x) l = existsb (str_eqb x) l'.
Proof.
  intros Heq. apply eq_true_iff_eq. rewrite !existsb_str_eqb. apply Heq.
Qed.

(** The closing loop keeps the non-empty candidates in the order of their
    first occurrence. *)
Lemma dedup_names_first_seen (candidates seen uniq : list str) :
  (forall y, In y seen <-> In y uniq) ->
  dedup_names candidates seen uniq =
    fold_left (fun acc x => if existsb (str_eqb x) acc then acc else acc ++ [x])
              (filter nonempty candidates) uniq.
Proof.
  revert seen uniq. induction candidates as [|c rest IH]; intros seen uniq Heq; [reflexivity|].
  cbn [dedup_names filter]. destruct (nonempty c); cbn [andb]; [|now apply IH].
  cbn [fold_left]. rewrite (existsb_str_eqb_ext c seen uniq Heq).
  destruct (existsb (str_eqb c) uniq); cbn [negb]; [now apply IH|].
  apply IH. intros y. rewrite in_app_iff. simpl. rewrite Heq. tauto.
Qed.

Lemma firstn_In {A} (n : nat) (l : list A) (x : A) : In x (firstn n l) -> In x l.
Proof. intros Hx. rewrite <- (firstn_skipn n l). apply in_app_iff. now left. Qed.

Lemma firstn_NoDup {A} (n : nat) (l : list A) : NoDup l -> NoDup (firstn n l).
Proof.
  intros Hnd. rewrite <- (firstn_skipn n l) in Hnd. now apply NoDup_app_remove_r in Hnd.
Qed.

Section NamesFromBlob.
Context `{Unicode} `{NamePatterns}.

(** X24. The names extracted from a text are at most three, pairwise
    distinct and never empty; absent or empty text yields none; and when
    the marker pattern matches, each name is the normal form of one of its
    snippets. *)
Theorem extract_names_from_blob_shape (blob : ostr) :
  (List.length (extract_names_from_blob blob) <= 3)%nat
  /\ NoDup (extract_names_from_blob blob)
  /\ Forall (fun n => n <> []) (extract_names_from_blob blob)
  /\ (or_empty blob = [] -> extract_names_from_blob blob = [])
  /\ (name_snippets (or_empty blob) <> [] ->
      forall n, In n (extract_names_from_blob blob) ->
        exists m, In m (name_snippets (or_empty blob)) /\ n = normalize_name (Some m)).
Proof.
  destruct blob as [[|c s]|]; cbn [extract_names_from_blob or_empty];
    try (repeat split; try constructor; simpl; try lia; try tauto; fail).
  set (blob := c :: s).
  set (candidates := match map (fun m => normalize_name (Some m)) (name_snippets blob) with
                     | [] => names_from_parts (split_roles blob)
                     | _ => map (fun m => normalize_name (Some m)) (name_snippets blob)
                     end).
  rewrite (dedup_names_first_seen candidates [] []) by tauto.
  fold (first_seen (filter nonempty candidates)).
  repeat split.
  - apply firstn_le_length.
  - apply firstn_NoDup, first_seen_NoDup.
  - apply Forall_forall. intros n Hn.
    apply firstn_In, first_seen_In, filter_nonempty_In in Hn. tauto.
  - discriminate.
  - intros Hsn n Hn. apply firstn_In, first_seen_In, filter_nonempty_In in Hn as [Hn _].
    unfold candidates in Hn. destruct (name_snippets blob) as [|m ms] eqn:E; [congruence|].
    cbn [map] in Hn. change (In n (map (fun m => normalize_name (Some m)) (m :: ms))) in Hn.
    apply in_map_iff in Hn as [m' [<- Hm']]. eauto.
Qed.

End NamesFromBlob.

(** ** The row limit of the API *)

(** X25. The row limit of [search]: a positive limit keeps the first
    [limit] rows; no limit or a limit of zero keeps every row; a negative
    limit [-k] drops the last [k] rows; the result is always a prefix of
    the rows. *)
Theorem limit_rows_cases {A} (limit : option Z) (rows : list A) :
  (forall n, limit = Some n -> 0 < n -> limit_rows limit rows = firstn (Z.to_nat n) rows)
  /\ (limit = None \/ limit = Some 0 -> limit_rows limit rows = rows)
  /\ (forall k, limit = Some (- k) -> 0 < k ->
        limit_rows limit rows = firstn (List.length rows - Z.to_nat k) rows)
  /\ exists rest, rows = limit_rows limit rows ++ rest.
Proof.
  assert (Hall : slice_to (Z.of_nat (List.length rows)) rows = rows).
  { unfold slice_to. destruct (Z.leb_spec 0 (Z.of_nat (List.length rows))); [|lia].
    rewrite Nat2Z.id. apply firstn_all. }
  repeat split.
  - intros n -> Hn. unfold limit_rows, slice_to.
    destruct (Z.eqb_spec n 0); [lia|]. destruct (Z.leb_spec 0 n); [reflexivity | lia].
  - intros [->| ->]; unfold limit_rows; cbn [Z.eqb]; exact Hall.
  - intros k -> Hk. unfold limit_rows, slice_to.
    destruct (Z.eqb_spec (- k) 0); [lia|]. destruct (Z.leb_spec 0 (- k)); [lia|].
    now rewrite Z.opp_involutive.
  - unfold limit_rows, slice_to.
    destruct (0 <=? _); eexists; symmetry; apply firstn_skipn.
Qed.

(** ** Instances on the example ledger *)

Lemma fetch_rows_for_pan_matches_witness :
  exists rows,
    fst (@fetch_rows_for_pan ucd_excerpt (Some (py "abcde 1234f")) ledger_example []) = Ok rows
    /\ (forall r, In r rows ->
          r4 r = Some (@canonicalize_pan ucd_excerpt (Some (py "abcde 1234f"))))
    /\ List.length rows =
       List.length (filter (pred_holds ledger_example
                              (ColEq "pan_upper"
                                 (@canonicalize_pan ucd_excerpt (Some (py "abcde 1234f")))))
                           (db_rows ledger_example)).
Proof.
  apply (@fetch_rows_for_pan_matches ucd_excerpt (Some (py "abcde 1234f"))
           ledger_example []); reflexivity.
Defined.

Lemma candidate_block_within_limit_witness :
  exists rows,
    fst (@candidate_block_by_names ucd_excerpt phonetics_upper SP_example
           [py "john doe"] ledger_example []) = Ok rows
    /\ (List.length rows <= candidate_limit SP_example)%nat.
Proof.
  apply (@candidate_block_within_limit ucd_excerpt phonetics_upper SP_example
           [py "john doe"] ledger_example []). reflexivity.
Defined.

Lemma candidate_block_shares_key_witness :
  exists rows,
    fst (@candidate_block_by_names ucd_excerpt phonetics_upper SP_example
           [py "John Doe"] ledger_example []) = Ok rows
    /\ forall r, In r rows ->
       exists n, In n [py "John Doe"] /\ n <> []
         /\ if col_in "name_phonetic" (db_columns ledger_example)
            then r1 r = Some (@phonetic_key phonetics_upper n)
            else r1 r = Some [] /\ r0 r = Some (@normalize_name ucd_excerpt (Some n)).
Proof.
  apply (@candidate_block_shares_key ucd_excerpt phonetics_upper SP_example
           [py "John Doe"] ledger_example []). reflexivity.
Defined.

Lemma expand_returns_only_matching_rows_witness :
  exists rows,
    fst (@expand_all_transactions_for_entities ucd_excerpt SP_example
           [py "abcde1234f"] [py "john doe"] ledger_example []) = Ok rows
    /\ forall r, In r rows ->
         In r (db_rows ledger_example)
         /\ @expansion_match ucd_excerpt ledger_example [py "abcde1234f"] [py "john doe"] r.
Proof.
  apply (@expand_returns_only_matching_rows ucd_excerpt SP_example
           [py "abcde1234f"] [py "john doe"] ledger_example []); reflexivity.
Defined.

Lemma expand_complete_without_limit_witness :
  exists rows,
    fst (@expand_all_transactions_for_entities ucd_excerpt SP_no_cap
           [py "abcde1234f"] [] ledger_example []) = Ok rows
    /\ forall r, In r (db_rows ledger_example) ->
         @expansion_match ucd_excerpt ledger_example [py "abcde1234f"] [] r -> In r rows.
Proof.
  apply (@expand_complete_without_limit ucd_excerpt SP_no_cap
           [py "abcde1234f"] [] ledger_example []); reflexivity.
Defined.

(** ** A table without the [pan_upper] column *)

Lemma alias_in_col_or_empty (name other : string) (cols : list string)
    (parts : list sql_expr) :
  String.eqb name other = false ->
  alias_in name (col_or_empty other cols :: parts) = alias_in name parts.
Proof.
  intros E. unfold col_or_empty, alias_in.
  destruct (col_in other cols); cbn [existsb]; [reflexivity|]. now rewrite E.
Qed.

(** X26. On a table with [name_norm] and without [pan_upper],
    [fetch_rows_for_pan] raises nothing: [WHERE pan_upper = ?] is bound to
    the alias ['' AS pan_upper] of the select list, so the query returns no
    row for a PAN whose canonical form is not empty, and one row per ledger
    row, with an empty PAN, for one whose canonical form is empty. *)
Theorem fetch_rows_for_pan_without_pan_column `{Unicode} (pan : ostr) (db : Database)
    (tr : list statement) :
  has_column db "name_norm" = true -> has_column db "pan_upper" = false ->
  exists rows,
    fst (fetch_rows_for_pan pan db tr) = Ok rows
    /\ Forall (fun row : Row => let '(_, _, _, _, p) := row in p = Some []) rows
    /\ List.length rows =
         if nonempty (canonicalize_pan pan) then 0%nat else List.length (db_rows db).
Proof.
  intros Hname Hpan.
  unfold fetch_rows_for_pan, bind, _get_table_columns, execute_table_info, execute_select5.
  rewrite check_parts_cons_col by assumption.
  rewrite !check_parts_cons_col_or_empty. cbn [check_parts].
  assert (Ecol : col_or_empty "pan_upper" (db_columns db) = EmptyAs "pan_upper").
  { unfold col_or_empty. now rewrite <- col_in_has_column, Hpan. }
  assert (Ealias : alias_in "pan_upper"
                     [Col "name_norm"; col_or_empty "name_phonetic" (db_columns db);
                      col_or_empty "address" (db_columns db);
                      col_or_empty "mobile" (db_columns db);
                      col_or_empty "pan_upper" (db_columns db)] = true).
  { change (alias_in "pan_upper" (Col "name_norm" :: ?l)) with (alias_in "pan_upper" l).
    rewrite !alias_in_col_or_empty by reflexivity. now rewrite Ecol. }
  cbn [select_check_where select_check_preds pred_column]. unfold bound_in.
  rewrite Hpan, Ealias. cbn [orb negb fst apply_limit].
  eexists. split; [reflexivity|]. split.
  - apply Forall_map, Forall_forall. intros r _. now rewrite Ecol.
  - rewrite length_map. set (sel := _ :: _) in *.
    assert (E : forall r, select_where_holds db sel
                            (WhereOr [ColEq "pan_upper" (canonicalize_pan pan)]) r
                          = negb (nonempty (canonicalize_pan pan))).
    { intros r. cbn [select_where_holds existsb]. unfold select_pred_holds, bound_cell.
      cbn [pred_column]. rewrite Hpan, Ealias, orb_false_r. unfold str_eqb.
      destruct (canonicalize_pan pan); [reflexivity|].
      now destruct (str_eq_dec [] (z :: s)). }
    rewrite (filter_ext _ _ E).
    destruct (nonempty (canonicalize_pan pan)); cbn [negb].
    + induction (db_rows db); [reflexivity | assumption].
    + f_equal. induction (db_rows db) as [|r l IH]; [reflexivity|].
      cbn [filter]. now rewrite IH.
Qed.

Lemma fetch_rows_for_pan_without_pan_column_witness :
  exists rows,
    fst (@fetch_rows_for_pan ucd_excerpt (Some (py "abcde1234f")) ledger_without_pan [])
      = Ok rows
    /\ Forall (fun row : Row => let '(_, _, _, _, p) := row in p = Some []) rows
    /\ List.length rows =
         if nonempty (@canonicalize_pan ucd_excerpt (Some (py "abcde1234f")))
         then 0%nat else List.length (db_rows ledger_without_pan).
Proof.
  apply (@fetch_rows_for_pan_without_pan_column ucd_excerpt (Some (py "abcde1234f"))
           ledger_without_pan []); reflexivity.
Defined.
